(** * ssh-proxy: the authorized-keys cache builder
    ([docker-res/ssh/update_authorized_keys.py])

    A shallow embedding of the script that sshd's AuthorizedKeysCommand runs:
    the two fleet back ends (Kubernetes pods, Docker containers), the
    query cache that lists the units already asked for their key, the two
    cache files and the file lock around one update.

    Text is [string]; a file is [option string] ([None]: no such file); an
    uncaught Python exception is the [Raise] result of a small state, error and
    trace monad.  The trace records every remote exec the script performs. *)

From Stdlib Require Import List String Ascii Bool Arith Lia.
Import ListNotations.
Open Scope string_scope.
Open Scope nat_scope.
Open Scope list_scope.

(** ** Python text operations used by the script *)

Module Text.

Definition LF : ascii := "010"%char.
Definition CR : ascii := "013"%char.

(** [str.isspace] on one character, for code points below 256. *)
Definition isspace (c : ascii) : bool :=
  let n := nat_of_ascii c in
  ((9 <=? n) && (n <=? 13)) || ((28 <=? n) && (n <=? 32))
  || (n =? 133) || (n =? 160).

(** [s.startswith(p)] *)
Definition startswith (s p : string) : bool := String.prefix p s.

Fixpoint lstrip (s : string) : string :=
  match s with
  | EmptyString => EmptyString
  | String c s' => if isspace c then lstrip s' else s
  end.

Fixpoint rstrip (s : string) : string :=
  match s with
  | EmptyString => EmptyString
  | String c s' =>
      match rstrip s' with
      | EmptyString => if isspace c then EmptyString else String c EmptyString
      | r => String c r
      end
  end.

(** [s.strip()] *)
Definition strip (s : string) : string := rstrip (lstrip s).

(** Text-mode reading translates "\r\n" and a lone "\r" to "\n". *)
Fixpoint universal_newlines (s : string) : string :=
  match s with
  | EmptyString => EmptyString
  | String c s' =>
      if Ascii.eqb c CR then
        match s' with
        | String c' s'' =>
            if Ascii.eqb c' LF then String LF (universal_newlines s'')
            else String LF (universal_newlines s')
        | EmptyString => String LF EmptyString
        end
      else String c (universal_newlines s')
  end.

(** Lines of a text, each with its terminating "\n" (the last one may
    lack it). *)
Fixpoint split_lines (s : string) : list string :=
  match s with
  | EmptyString => []
  | String c s' =>
      if Ascii.eqb c LF then String c EmptyString :: split_lines s'
      else match split_lines s' with
           | [] => [String c EmptyString]
           | l :: ls => String c l :: ls
           end
  end.

(** [f.readlines()] of a file opened with mode 'r'. *)
Definition readlines (content : string) : list string :=
  split_lines (universal_newlines content).

(** ["{}\n".format(s)] *)
Definition format_line (s : string) : string := (s ++ String LF EmptyString)%string.

End Text.

(** ** Results, exceptions and the monad *)

Inductive exn : Type :=
| FileNotFoundError   (* os.remove on a missing file *)
| Timeout             (* filelock.Timeout *)
| BackendError.       (* anything a back end call raises *)

Inductive result (A : Type) : Type :=
| Ok (a : A)
| Raise (e : exn).
Arguments Ok {A} a.
Arguments Raise {A} e.

(** One remote exec: the identifier of the unit (pod name, container id) and
    what came back ([None]: the call raised). *)
Definition exec_event : Type := string * option string.

(** State [S], exceptions, and the trace of remote execs. *)
Definition M (S A : Type) : Type := S -> result A * S * list exec_event.

Definition ret {S A} (a : A) : M S A := fun s => (Ok a, s, []).

Definition bind {S A B} (m : M S A) (k : A -> M S B) : M S B :=
  fun s =>
    match m s with
    | (Ok a, s1, t1) => let '(r, s2, t2) := k a s1 in (r, s2, t1 ++ t2)
    | (Raise e, s1, t1) => (Raise e, s1, t1)
    end.

Definition raise {S A} (e : exn) : M S A := fun s => (Raise e, s, []).

(** [try: m  except: h] *)
Definition try_except {S A} (m : M S A) (h : exn -> M S A) : M S A :=
  fun s =>
    match m s with
    | (Ok a, s1, t1) => (Ok a, s1, t1)
    | (Raise e, s1, t1) => let '(r, s2, t2) := h e s1 in (r, s2, t1 ++ t2)
    end.

Definition gets {S A} (f : S -> A) : M S A := fun s => (Ok (f s), s, []).
Definition modify {S} (f : S -> S) : M S unit := fun s => (Ok tt, f s, []).

Notation "x <- m ;; k" := (bind m (fun x => k))
  (at level 61, m at next level, right associativity).
Notation "' pat <- m ;; k" := (bind m (fun x => match x with pat => k end))
  (at level 61, pat pattern, m at next level, right associativity).
Notation "m ;; k" := (bind m (fun _ => k))
  (at level 61, right associativity).

(** [for x in xs: acc = body x acc] *)
Fixpoint for_each {S A B} (xs : list A) (body : A -> B -> M S B) (acc : B)
  : M S B :=
  match xs with
  | [] => ret acc
  | x :: xs' => acc' <- body x acc ;; for_each xs' body acc'
  end.

(** ** The fleet back ends *)

Record Pod : Type := { metadata_name : string }.
Record Container : Type := { id : string; name : string }.

(** What the script sees of the outside world [W]: the listing calls and the
    exec calls.  An exec returns [None] when the call raises; it may change
    the world, so the same unit can answer differently on a later call. *)
Record Backend (W : Type) : Type := {
  SSH_PERMIT_SERVICE_PREFIX : string;
  (* kubernetes_client.list_namespaced_pod(NAMESPACE, status.phase=Running) *)
  list_namespaced_pod : W -> list Pod;
  (* stream.stream(connect_get_namespaced_pod_exec, name, ...) *)
  connect_get_namespaced_pod_exec : string -> W -> option string * W;
  (* docker_client.containers.list() *)
  containers_list : W -> list Container;
  (* container.exec_run(PRINT_KEY_COMMAND): exit code and decoded output *)
  exec_run : Container -> W -> option (nat * string) * W
}.
Arguments SSH_PERMIT_SERVICE_PREFIX {W} _.
Arguments list_namespaced_pod {W} _ _.
Arguments connect_get_namespaced_pod_exec {W} _ _ _.
Arguments containers_list {W} _ _.
Arguments exec_run {W} _ _ _.

Section Fetch.
Context {W : Type} (api : Backend W).

Definition stream (pod_name : string) : M W string :=
  fun w =>
    match connect_get_namespaced_pod_exec api pod_name w with
    | (Some out, w') => (Ok out, w', [(pod_name, Some out)])
    | (None, w') => (Raise BackendError, w', [(pod_name, None)])
    end.

Definition container_exec_run (c : Container) : M W (nat * string) :=
  fun w =>
    match exec_run api c w with
    | (Some r, w') => (Ok r, w', [(id c, Some (snd r))])
    | (None, w') => (Raise BackendError, w', [(id c, None)])
    end.

(** The loop state is the pair [(authorized_keys, new_query_cache)]. *)
Definition kubernetes_body (query_cache : list string) (pod : Pod)
    (acc : list string * list string) : M W (list string * list string) :=
  let '(authorized_keys, new_query_cache) := acc in
  let name := metadata_name pod in
  if negb (Text.startswith name (SSH_PERMIT_SERVICE_PREFIX api)) then
    ret (authorized_keys, new_query_cache)
  else if existsb (String.eqb name) query_cache then
    ret (authorized_keys, new_query_cache ++ [name])
  else
    try_except
      (exec_result <- stream name ;;
       ret (authorized_keys ++ [exec_result], new_query_cache ++ [name]))
      (fun _ => (* print("Could not reach pod") *)
         ret (authorized_keys, new_query_cache)).

Definition get_authorized_keys_kubernetes (query_cache : list string)
  : M W (list string * list string) :=
  pod_list <- gets (list_namespaced_pod api) ;;
  for_each pod_list (kubernetes_body query_cache) ([], []).

Definition docker_body (query_cache : list string) (container : Container)
    (acc : list string * list string) : M W (list string * list string) :=
  let '(authorized_keys, new_query_cache) := acc in
  if negb (Text.startswith (name container) (SSH_PERMIT_SERVICE_PREFIX api)) then
    ret (authorized_keys, new_query_cache)
  else if existsb (String.eqb (id container)) query_cache then
    ret (authorized_keys, new_query_cache ++ [id container])
  else
    exec_result <- container_exec_run container ;;
    ret (authorized_keys ++ [snd exec_result],
         new_query_cache ++ [id container]).

Definition get_authorized_keys_docker (query_cache : list string)
  : M W (list string * list string) :=
  containers <- gets (containers_list api) ;;
  for_each containers (docker_body query_cache) ([], []).

End Fetch.

(** ** The host: the two cache files, the lock file and the fleet *)

Inductive path : Type := authorized_keys_cache_file | query_cache_file.

(** The lock file [authorized_keys_cache_file_lock]: free, held by another
    process, or held by this process. *)
Inductive lock_state : Type := Unlocked | LockedElsewhere | LockedHere.

Record Host (W : Type) : Type := {
  etc_ssh_authorized_keys_cache : option string;
  etc_ssh_query_cache : option string;
  cache_files_lock : lock_state;
  world : W
}.
Arguments etc_ssh_authorized_keys_cache {W} _.
Arguments etc_ssh_query_cache {W} _.
Arguments cache_files_lock {W} _.
Arguments world {W} _.
Arguments Build_Host {W} _ _ _ _.

Inductive container_client_kind : Type :=
| CONTAINER_CLIENT_KUBERNETES
| CONTAINER_CLIENT_DOCKER.

Inductive write_mode : Type := mode_a | mode_w.

Section Script.
Context {W : Type} (api : Backend W).

Definition file (p : path) (h : Host W) : option string :=
  match p with
  | authorized_keys_cache_file => etc_ssh_authorized_keys_cache h
  | query_cache_file => etc_ssh_query_cache h
  end.

Definition set_file (p : path) (v : option string) (h : Host W) : Host W :=
  match p with
  | authorized_keys_cache_file =>
      Build_Host v (etc_ssh_query_cache h) (cache_files_lock h) (world h)
  | query_cache_file =>
      Build_Host (etc_ssh_authorized_keys_cache h) v (cache_files_lock h) (world h)
  end.

Definition set_lock (l : lock_state) (h : Host W) : Host W :=
  Build_Host (etc_ssh_authorized_keys_cache h) (etc_ssh_query_cache h) l (world h).

Definition set_world (w : W) (h : Host W) : Host W :=
  Build_Host (etc_ssh_authorized_keys_cache h) (etc_ssh_query_cache h)
             (cache_files_lock h) w.

Definition content (p : path) (h : Host W) : string :=
  match file p h with Some s => s | None => EmptyString end.

(** [os.remove(p)] *)
Definition os_remove (p : path) : M (Host W) unit :=
  fun h =>
    match file p h with
    | Some _ => (Ok tt, set_file p None h, [])
    | None => (Raise FileNotFoundError, h, [])
    end.

(** [os.path.isfile(p)] *)
Definition os_path_isfile (p : path) : M (Host W) bool :=
  gets (fun h => match file p h with Some _ => true | None => false end).

(** [open(p, 'r').readlines()] of a file that exists. *)
Definition readlines (p : path) : M (Host W) (list string) :=
  gets (fun h => Text.readlines (content p h)).

(** [open(p, mode)]: 'w' truncates or creates, 'a' creates when missing. *)
Definition open_for_writing (p : path) (mode : write_mode) : M (Host W) unit :=
  modify (fun h =>
    match mode with
    | mode_w => set_file p (Some EmptyString) h
    | mode_a => set_file p (Some (content p h)) h
    end).

(** [cache_file.write(s)] on the file opened at [p]. *)
Definition file_write (p : path) (s : string) : M (Host W) unit :=
  modify (fun h => set_file p (Some (content p h ++ s)%string) h).

(** A back end call run from the host. *)
Definition on_world {A} (m : M W A) : M (Host W) A :=
  fun h => let '(r, w', t) := m (world h) in (r, set_world w' h, t).

(** [lock = FileLock(..., timeout=0)] then [with lock:].  Every call builds
    its own lock object, so taking the lock raises [Timeout] at once whenever
    the lock file is held, by another process or by this one; a lock that
    was taken is released on every way out of the body. *)
Definition with_lock {A} (body : M (Host W) A) : M (Host W) A :=
  fun h =>
    match cache_files_lock h with
    | Unlocked => let '(r, h', t) := body (set_lock LockedHere h) in
                  (r, set_lock Unlocked h', t)
    | _ => (Raise Timeout, h, [])
    end.

(** [len(sys.argv) == 2 and sys.argv[1] == "full"] *)
Definition full_run (argv : list string) : bool :=
  (List.length argv =? 2) && String.eqb (nth 1 argv EmptyString) "full".

Definition load_query_cache : M (Host W) (list string) :=
  is_file <- os_path_isfile query_cache_file ;;
  if is_file then
    lines <- readlines query_cache_file ;;
    for_each lines (fun line query_cache => ret (query_cache ++ [Text.strip line])) []
  else ret [].

Definition write_authorized_keys (mode : write_mode) (authorized_keys : list string)
  : M (Host W) unit :=
  open_for_writing authorized_keys_cache_file mode ;;
  for_each authorized_keys
    (fun authorized_key _ =>
       if Bool.eqb (Text.startswith authorized_key "ssh") false then ret tt
       else file_write authorized_keys_cache_file (Text.format_line authorized_key))
    tt.

Definition write_query_cache (new_query_cache : list string) : M (Host W) unit :=
  open_for_writing query_cache_file mode_w ;;
  for_each new_query_cache
    (fun entry _ => file_write query_cache_file (Text.format_line entry)) tt.

(** What the authorized-keys file holds right after [open(..., mode)]. *)
Definition base_text (mode : write_mode) (h : Host W) : string :=
  match mode with
  | mode_w => EmptyString
  | mode_a => content authorized_keys_cache_file h
  end.

(** The body of [with lock:]. *)
Definition locked_section (container_client : container_client_kind)
    (argv : list string) : M (Host W) unit :=
  mode <- (if full_run argv
           then os_remove query_cache_file ;; ret mode_w
           else ret mode_a) ;;
  query_cache <- load_query_cache ;;
  '(authorized_keys, new_query_cache) <-
     match container_client with
     | CONTAINER_CLIENT_DOCKER =>
         on_world (get_authorized_keys_docker api query_cache)
     | CONTAINER_CLIENT_KUBERNETES =>
         on_world (get_authorized_keys_kubernetes api query_cache)
     end ;;
  write_authorized_keys mode authorized_keys ;;
  write_query_cache new_query_cache.

Definition update_cache_file (container_client : container_client_kind)
    (argv : list string) : M (Host W) unit :=
  try_except
    (with_lock (locked_section container_client argv))
    (fun e =>
       match e with
       | Timeout => (* print("The cache is currently updated by someone else") *)
           ret tt
       | _ => raise e
       end).

(** The script from its first line: the back end chosen at import time
    ([None]: neither client could be set up, [exit(1)]), then
    [update_cache_file()].  The process status is 0 on a normal return and
    1 on [exit(1)] or an uncaught exception. *)
Definition script (container_client : option container_client_kind)
    (argv : list string) (h : Host W) : nat * Host W * list exec_event :=
  match container_client with
  | None => (1, h, [])
  | Some c =>
      match update_cache_file c argv h with
      | (Ok _, h', t) => (0, h', t)
      | (Raise _, h', t) => (1, h', t)
      end
  end.

End Script.

(** The back end selection at the top of the script: Kubernetes first, Docker
    when the Kubernetes configuration is not found.  Each probe is given by
    what it does: [Ok tt] or the exception it raises. *)
Definition select_container_client (load_kube_config docker_ping : result unit)
  : result (option container_client_kind) :=
  match load_kube_config with
  | Ok _ => Ok (Some CONTAINER_CLIENT_KUBERNETES)
  | Raise FileNotFoundError =>
      match docker_ping with
      | Ok _ => Ok (Some CONTAINER_CLIENT_DOCKER)
      | Raise FileNotFoundError => Ok None
      | Raise e => Raise e
      end
  | Raise e => Raise e
  end.

(** ** Vocabulary for the statements *)

(** The characters of a text all satisfy [p]. *)
Fixpoint all_chars (p : ascii -> bool) (s : string) : bool :=
  match s with
  | EmptyString => true
  | String c s' => p c && all_chars p s'
  end.

(** An identifier as the back ends hand them out (a pod name is a DNS label,
    a container id is hexadecimal): no whitespace at all. *)
Definition plain_identifier (s : string) : bool :=
  all_chars (fun c => negb (Text.isspace c)) s.

(** The text that writing the entries one per line leaves in a file. *)
Fixpoint render (entries : list string) : string :=
  match entries with
  | [] => EmptyString
  | e :: rest => (Text.format_line e ++ render rest)%string
  end.

(** The entries that a later run reads back from a query cache text. *)
Definition parse_query_cache (text : string) : list string :=
  map Text.strip (Text.readlines text).

(** The persisted query cache of a host, as the next run will load it. *)
Definition cached_identifiers {W} (h : Host W) : list string :=
  match etc_ssh_query_cache h with
  | Some text => parse_query_cache text
  | None => []
  end.

Definition well_formed_key (k : string) : bool := Text.startswith k "ssh".

(** The query cache a run works with: nothing in a full run, the persisted
    one otherwise. *)
Definition prior_query_cache {W} (argv : list string) (h : Host W) : list string :=
  if full_run argv then [] else cached_identifiers h.

(** Successful execs of a trace: identifier and text; failed ones: identifier. *)
Definition fetched (t : list exec_event) : list (string * string) :=
  flat_map (fun ev => match snd ev with
                      | Some out => [(fst ev, out)]
                      | None => []
                      end) t.

Definition failed (t : list exec_event) : list string :=
  flat_map (fun ev => match snd ev with
                      | Some _ => []
                      | None => [fst ev]
                      end) t.

Definition exec_targets (t : list exec_event) : list string := map fst t.

Definition mem (i : string) (l : list string) : bool := existsb (String.eqb i) l.

Section Vocabulary.
Context {W : Type} (api : Backend W).

(** The call that [update_cache_file] makes for the selected client. *)
Definition get_authorized_keys (c : container_client_kind)
    (query_cache : list string) : M W (list string * list string) :=
  match c with
  | CONTAINER_CLIENT_DOCKER => get_authorized_keys_docker api query_cache
  | CONTAINER_CLIENT_KUBERNETES => get_authorized_keys_kubernetes api query_cache
  end.

(** Identifiers of the running units whose name starts with the prefix, in
    listing order: the fleet snapshot as one run sees it. *)
Definition eligible (c : container_client_kind) (w : W) : list string :=
  match c with
  | CONTAINER_CLIENT_KUBERNETES =>
      map metadata_name
        (filter (fun p => Text.startswith (metadata_name p)
                            (SSH_PERMIT_SERVICE_PREFIX api))
                (list_namespaced_pod api w))
  | CONTAINER_CLIENT_DOCKER =>
      map id
        (filter (fun k => Text.startswith (name k)
                            (SSH_PERMIT_SERVICE_PREFIX api))
                (containers_list api w))
  end.

(** The exec of each back end as the loop body uses it. *)
Definition pod_exec (p : Pod) (w : W) : option string * W :=
  connect_get_namespaced_pod_exec api (metadata_name p) w.

Definition container_exec (k : Container) (w : W) : option string * W :=
  match exec_run api k w with
  | (Some r, w') => (Some (snd r), w')
  | (None, w') => (None, w')
  end.

(** The fleet stays as it is while it is asked: no exec of the selected
    client changes the world, so a unit that answers keeps answering and one
    that cannot be reached stays out of reach. *)
Definition exec_keeps_world (c : container_client_kind) : Prop :=
  match c with
  | CONTAINER_CLIENT_KUBERNETES =>
      forall pod_name w, snd (connect_get_namespaced_pod_exec api pod_name w) = w
  | CONTAINER_CLIENT_DOCKER =>
      forall k w, snd (exec_run api k w) = w
  end.

(** Invocations one after the other.  Before each one the rest of the
    system does [env] to the host (units come and go, other processes take
    or drop the lock).  For every invocation: the host it started from and
    the execs it made. *)
Fixpoint invocations (c : container_client_kind)
    (runs : list (list string * (Host W -> Host W))) (h : Host W)
  : list (Host W * list exec_event) :=
  match runs with
  | [] => []
  | (argv, env) :: rest =>
      let h0 := env h in
      let '(_, h', t) := update_cache_file api c argv h0 in
      (h0, t) :: invocations c rest h'
  end.

End Vocabulary.

(** Both loop bodies are one body, up to how a unit is named, identified and
    exec'd, and whether a failed exec is caught ([tolerant]). *)
Section UnitLoop.
Context {W U : Type}.
Variable prefix : string.
Variable uname ident : U -> string.
Variable exec : U -> W -> option string * W.
Variable tolerant : bool.

Definition unit_matches (u : U) : bool := Text.startswith (uname u) prefix.

(** Identifiers of the listed units whose name starts with the prefix. *)
Definition matching (units : list U) : list string :=
  map ident (filter unit_matches units).

Definition unit_body (query_cache : list string) (u : U)
    (acc : list string * list string) : M W (list string * list string) :=
  let '(authorized_keys, new_query_cache) := acc in
  if negb (unit_matches u) then ret (authorized_keys, new_query_cache)
  else if mem (ident u) query_cache then
    ret (authorized_keys, new_query_cache ++ [ident u])
  else fun w =>
    match exec u w with
    | (Some out, w') =>
        (Ok (authorized_keys ++ [out], new_query_cache ++ [ident u]), w',
         [(ident u, Some out)])
    | (None, w') =>
        (if tolerant then Ok (authorized_keys, new_query_cache)
         else Raise BackendError, w', [(ident u, None)])
    end.

End UnitLoop.

(** ** A small fleet to run the script on *)

Module Demo.

(** [outputs]: what the key command prints in each unit; [unreachable]:
    units whose next exec raises (the unit answers again afterwards). *)
Record World : Type := {
  pods : list Pod;
  containers : list Container;
  outputs : list (string * string);
  unreachable : list string
}.

Fixpoint lookup (i : string) (l : list (string * string)) : option string :=
  match l with
  | [] => None
  | (k, v) :: rest => if String.eqb i k then Some v else lookup i rest
  end.

Definition exec (i : string) (w : World) : option string * World :=
  if mem i (unreachable w) then
    (None, {| pods := pods w; containers := containers w; outputs := outputs w;
              unreachable := filter (fun j => negb (String.eqb i j)) (unreachable w) |})
  else (lookup i (outputs w), w).

Definition api (prefix : string) : Backend World := {|
  SSH_PERMIT_SERVICE_PREFIX := prefix;
  list_namespaced_pod := pods;
  connect_get_namespaced_pod_exec := exec;
  containers_list := containers;
  exec_run := fun c w =>
    match exec (id c) w with
    | (Some out, w') => (Some (0, out), w')
    | (None, w') => (None, w')
    end
|}.

(** The same fleet with units that do not recover: an exec into an
    unreachable unit raises and leaves the world as it is. *)
Definition steady_exec (i : string) (w : World) : option string * World :=
  (if mem i (unreachable w) then None else lookup i (outputs w), w).

Definition steady_api (prefix : string) : Backend World := {|
  SSH_PERMIT_SERVICE_PREFIX := prefix;
  list_namespaced_pod := pods;
  connect_get_namespaced_pod_exec := steady_exec;
  containers_list := containers;
  exec_run := fun c w =>
    match steady_exec (id c) w with
    | (Some out, w') => (Some (0, out), w')
    | (None, w') => (None, w')
    end
|}.

Definition pod_a : Pod := {| metadata_name := "ws-a" |}.
Definition pod_b : Pod := {| metadata_name := "ws-b" |}.
Definition pod_other : Pod := {| metadata_name := "db-0" |}.
Definition box_a : Container := {| id := "0a1f"; name := "ws-a" |}.
Definition box_b : Container := {| id := "7c3e"; name := "ws-b" |}.

Definition key_a : string := "ssh-ed25519 AAAAC3Nza-a root@ws-a".
Definition key_b : string := "ssh-ed25519 AAAAC3Nza-b root@ws-b".
Definition no_key : string := "cat: /root/.ssh/id_ed25519.pub: No such file or directory".

Definition fleet (down : list string) : World := {|
  pods := [pod_a; pod_other; pod_b];
  containers := [box_a; box_b];
  outputs := [("ws-a", key_a); ("ws-b", key_b); ("db-0", no_key);
              ("0a1f", key_a); ("7c3e", key_b)];
  unreachable := down
|}.

Definition empty_fleet : World := {|
  pods := []; containers := []; outputs := []; unreachable := []
|}.

Definition host (keys cache : option string) (l : lock_state) (w : World)
  : Host World :=
  Build_Host keys cache l w.

Definition incremental : list string := ["update_authorized_keys.py"].
Definition full : list string := ["update_authorized_keys.py"; "full"].

End Demo.

(** ** The whole program *)

Section Program.
Context {W : Type} (api : Backend W).

(** Identifiers of all the units a listing call returns, whatever their
    name. *)
Definition listed_identifiers (c : container_client_kind) (w : W) : list string :=
  match c with
  | CONTAINER_CLIENT_KUBERNETES => map metadata_name (list_namespaced_pod api w)
  | CONTAINER_CLIENT_DOCKER => map id (containers_list api w)
  end.

(** The script with its import-time part: the two probes, then [script].  An
    exception that a probe lets through ends the process with status 1
    before [update_cache_file] is reached. *)
Definition program (load_kube_config docker_ping : result unit)
    (argv : list string) (h : Host W) : nat * Host W * list exec_event :=
  match select_container_client load_kube_config docker_ping with
  | Ok container_client => script api container_client argv h
  | Raise _ => (1, h, [])
  end.

End Program.

(** * Proofs *)

(** ** Text: what is written line by line is read back entry by entry *)

Section TextFacts.
Import Text.

Lemma append_assoc (a b c : string) : ((a ++ b) ++ c = a ++ (b ++ c))%string.
Proof. induction a as [|x a IH]; simpl; [reflexivity | now rewrite IH]. Qed.

Lemma append_nil_r (a : string) : (a ++ EmptyString)%string = a.
Proof. induction a as [|x a IH]; simpl; [reflexivity | now rewrite IH]. Qed.

Lemma all_chars_app p a b :
  all_chars p (a ++ b)%string = all_chars p a && all_chars p b.
Proof.
  induction a as [|x a IH]; simpl; [reflexivity|].
  now rewrite IH, andb_assoc.
Qed.

Lemma all_chars_weaken (p q : ascii -> bool) s :
  (forall c, p c = true -> q c = true) ->
  all_chars p s = true -> all_chars q s = true.
Proof.
  intros Hpq. induction s as [|c s IH]; simpl; [reflexivity|].
  intros H. apply andb_true_iff in H as [Hc Hs].
  now rewrite (Hpq _ Hc), (IH Hs).
Qed.

Lemma isspace_not_CR c : negb (isspace c) = true -> Ascii.eqb c CR = false.
Proof.
  intros H. destruct (Ascii.eqb c CR) eqn:E; [|reflexivity].
  apply Ascii.eqb_eq in E. subst c. discriminate H.
Qed.

Lemma isspace_not_LF c : negb (isspace c) = true -> Ascii.eqb c LF = false.
Proof.
  intros H. destruct (Ascii.eqb c LF) eqn:E; [|reflexivity].
  apply Ascii.eqb_eq in E. subst c. discriminate H.
Qed.

(** The rendered query cache has no carriage return to translate. *)
Lemma universal_newlines_no_CR s :
  all_chars (fun c => negb (Ascii.eqb c CR)) s = true ->
  universal_newlines s = s.
Proof.
  induction s as [|c s IH]; simpl; [reflexivity|].
  intros H. apply andb_true_iff in H as [Hc Hs].
  apply negb_true_iff in Hc. rewrite Hc. now rewrite (IH Hs).
Qed.

Lemma render_no_CR entries :
  forallb plain_identifier entries = true ->
  all_chars (fun c => negb (Ascii.eqb c CR)) (render entries) = true.
Proof.
  induction entries as [|e rest IH]; simpl; [reflexivity|].
  intros H. apply andb_true_iff in H as [He Hr].
  unfold format_line. rewrite !all_chars_app, (IH Hr). simpl.
  rewrite andb_true_r. apply andb_true_iff. split; [|reflexivity].
  revert He. apply all_chars_weaken. intros c Hc.
  now rewrite (isspace_not_CR c Hc).
Qed.

Lemma split_lines_line e rest :
  plain_identifier e = true ->
  split_lines (format_line e ++ rest)%string = format_line e :: split_lines rest.
Proof.
  unfold format_line, plain_identifier. induction e as [|c e IH]; simpl.
  - reflexivity.
  - intros H. apply andb_true_iff in H as [Hc He].
    rewrite (isspace_not_LF c Hc), (IH He). reflexivity.
Qed.

Lemma rstrip_line e :
  plain_identifier e = true -> rstrip (format_line e) = e.
Proof.
  unfold format_line, plain_identifier. induction e as [|c e IH]; simpl.
  - reflexivity.
  - intros H. apply andb_true_iff in H as [Hc He].
    rewrite (IH He). apply negb_true_iff in Hc.
    destruct e; [now rewrite Hc | reflexivity].
Qed.

Lemma strip_line e :
  plain_identifier e = true -> strip (format_line e) = e.
Proof.
  intros H. unfold strip.
  destruct e as [|c e]; [reflexivity|].
  assert (Hl : lstrip (format_line (String c e)) = format_line (String c e)).
  { unfold plain_identifier in H. simpl in H.
    apply andb_true_iff in H as [Hc _]. apply negb_true_iff in Hc.
    unfold format_line. simpl. now rewrite Hc. }
  rewrite Hl. now apply rstrip_line.
Qed.

Lemma split_lines_render entries :
  forallb plain_identifier entries = true ->
  split_lines (render entries) = map format_line entries.
Proof.
  induction entries as [|e rest IH]; simpl; [reflexivity|].
  intros H. apply andb_true_iff in H as [He Hr].
  now rewrite (split_lines_line e _ He), (IH Hr).
Qed.

(** Round trip of the query cache file. *)
Lemma parse_render entries :
  forallb plain_identifier entries = true ->
  parse_query_cache (render entries) = entries.
Proof.
  intros H. unfold parse_query_cache, readlines.
  rewrite (universal_newlines_no_CR _ (render_no_CR _ H)).
  rewrite (split_lines_render _ H).
  induction entries as [|e rest IH]; simpl; [reflexivity|].
  simpl in H. apply andb_true_iff in H as [He Hr].
  now rewrite (strip_line e He), (IH Hr).
Qed.

Lemma render_app a b : render (a ++ b) = (render a ++ render b)%string.
Proof.
  induction a as [|e a IH]; simpl; [reflexivity|].
  now rewrite IH, append_assoc.
Qed.

End TextFacts.

(** ** The fetch loop *)

Ltac inv H := inversion H; subst; clear H.

Lemma lock_state_eq_dec (a b : lock_state) : {a = b} + {a <> b}.
Proof. decide equality. Defined.

Lemma for_each_cons {S A B} (f : A -> B -> M S B) x xs acc s :
  for_each (x :: xs) f acc s =
  match f x acc s with
  | (Ok a, s1, t1) =>
      let '(r, s2, t2) := for_each xs f a s1 in (r, s2, t1 ++ t2)
  | (Raise e, s1, t1) => (Raise e, s1, t1)
  end.
Proof. reflexivity. Qed.

Lemma for_each_ext {S A B} (f g : A -> B -> M S B) (xs : list A) :
  (forall x acc s, f x acc s = g x acc s) ->
  forall acc s, for_each xs f acc s = for_each xs g acc s.
Proof.
  intros Hfg. induction xs as [|x xs IH]; intros acc s; simpl; [reflexivity|].
  unfold bind. rewrite Hfg.
  destruct (g x acc s) as [[[a|e] s1] t1]; [|reflexivity].
  now rewrite IH.
Qed.

Lemma fetched_app t1 t2 : fetched (t1 ++ t2) = fetched t1 ++ fetched t2.
Proof. unfold fetched. now rewrite flat_map_app. Qed.

Lemma failed_app t1 t2 : failed (t1 ++ t2) = failed t1 ++ failed t2.
Proof. unfold failed. now rewrite flat_map_app. Qed.

Lemma fetched_targets t i : In i (map fst (fetched t)) -> In i (exec_targets t).
Proof.
  induction t as [|[j [out|]] t IH]; simpl; intros H.
  - exact H.
  - destruct H as [H|H]; [now left | right; now apply IH].
  - right. now apply IH.
Qed.

Lemma mem_In i l : mem i l = true <-> In i l.
Proof.
  unfold mem. rewrite existsb_exists. split.
  - intros [x [Hx E]]. apply String.eqb_eq in E. now subst.
  - intros H. exists i. split; [exact H | apply String.eqb_refl].
Qed.

Section UnitLoopFacts.
Context {W U : Type}.
Variable prefix : string.
Variable uname ident : U -> string.
Variable exec : U -> W -> option string * W.
Variable tolerant : bool.
Variable query_cache : list string.

Local Abbreviation body := (unit_body prefix uname ident exec tolerant query_cache).
Local Abbreviation listed := (matching prefix uname ident).
Local Abbreviation cached := (fun i : string => mem i query_cache).
Local Abbreviation fresh := (fun i : string => negb (mem i query_cache)).

Lemma matching_cons u us :
  listed (u :: us) =
  if unit_matches prefix uname u then ident u :: listed us else listed us.
Proof.
  unfold matching. simpl.
  now destruct (unit_matches prefix uname u).
Qed.

(** Everything the claims need about one pass over the listing. *)
Lemma unit_loop_summary (units : list U) :
  forall ks nq w r w' t,
    for_each units body (ks, nq) w = (r, w', t) ->
    (forall i, In i (exec_targets t) ->
               mem i query_cache = false /\ In i (listed units)) /\
    (t = [] -> w' = w) /\
    match r with
    | Ok (ks', nq') =>
        exists dn,
          ks' = ks ++ map snd (fetched t) /\
          nq' = nq ++ dn /\
          filter fresh dn = map fst (fetched t) /\
          filter cached dn = filter cached (listed units) /\
          (failed t = [] -> dn = listed units) /\
          (tolerant = false -> failed t = [])
    | Raise e => e = BackendError /\ tolerant = false /\ failed t <> []
    end.
Proof.
  induction units as [|u us IH]; intros ks nq w r w' t H.
  - simpl in H. inv H. split; [intros i []|]. split; [reflexivity|].
    exists []. simpl. rewrite !app_nil_r. repeat split.
  - rewrite for_each_cons in H.
    destruct (body u (ks, nq) w) as [[r1 w1] t1] eqn:Eb.
    unfold unit_body in Eb. rewrite matching_cons.
    destruct (unit_matches prefix uname u) eqn:Em; simpl in Eb.
    + destruct (mem (ident u) query_cache) eqn:Ec.
      * (* carried over from the query cache *)
        inv Eb.
        destruct (for_each us body (ks, nq ++ [ident u]) w1)
          as [[r2 w2] t2] eqn:E2.
        inv H. apply IH in E2 as (Ht & Hw & Hr). simpl.
        split; [|split; [exact Hw|]].
        { intros i Hi. destruct (Ht i Hi) as [? ?]. split; [assumption|now right]. }
        destruct r as [[ks' nq']|e]; [|exact Hr].
        destruct Hr as (dn & -> & -> & Hf & Hc & Hall & Htol).
        exists (ident u :: dn). simpl.
        rewrite Ec. simpl. rewrite <- app_assoc. simpl.
        split; [reflexivity|]. split; [reflexivity|]. split; [exact Hf|].
        split; [now rewrite Hc|]. split; [|exact Htol].
        intros Hz. now rewrite (Hall Hz).
      * destruct (exec u w) as [[out|] w0] eqn:Ex.
        -- (* fetched *)
           inv Eb.
           destruct (for_each us body (ks ++ [out], nq ++ [ident u]) w1)
             as [[r2 w2] t2] eqn:E2.
           inv H. apply IH in E2 as (Ht & Hw & Hr).
           split; [|split; [discriminate|]].
           { intros i [Hi|Hi].
             - simpl in Hi. subst i. split; [assumption|now left].
             - destruct (Ht i Hi) as [? ?]. split; [assumption|now right]. }
           destruct r as [[ks' nq']|e]; simpl; [|exact Hr].
           destruct Hr as (dn & -> & -> & Hf & Hc & Hall & Htol).
           exists (ident u :: dn). simpl.
           rewrite Ec. simpl. rewrite <- !app_assoc. simpl.
           split; [reflexivity|]. split; [reflexivity|].
           split; [now rewrite Hf|]. split; [exact Hc|]. split; [|exact Htol].
           intros Hz. now rewrite (Hall Hz).
        -- (* the exec raised *)
           destruct (bool_dec tolerant true) as [Etol|Etol].
           ++ rewrite Etol in Eb.
              assert (Hnf : tolerant <> false) by (rewrite Etol; discriminate).
              clear Etol. inv Eb.
              destruct (for_each us body (ks, nq) w1) as [[r2 w2] t2] eqn:E2.
              inv H. apply IH in E2 as (Ht & Hw & Hr).
              split; [|split; [discriminate|]].
              { intros i [Hi|Hi].
                - simpl in Hi. subst i. split; [assumption|now left].
                - destruct (Ht i Hi) as [? ?]. split; [assumption|now right]. }
              destruct r as [[ks' nq']|e]; simpl;
                [|destruct Hr as (_ & ? & _); contradiction].
              destruct Hr as (dn & -> & -> & Hf & Hc & Hall & Htol).
              exists dn. rewrite Ec.
              split; [reflexivity|]. split; [reflexivity|]. split; [exact Hf|].
              split; [exact Hc|]. split; [discriminate|contradiction].
           ++ assert (Ef := not_true_is_false _ Etol). rewrite Ef in Eb.
              clear Ef. inv Eb. inv H. split; [|split; [discriminate|]].
              { intros i [Hi|[]]. simpl in Hi. subst i.
                split; [assumption|now left]. }
              split; [reflexivity|].
              split; [now apply not_true_is_false|]. discriminate.
    + (* the name does not start with the prefix *)
      inv Eb.
      destruct (for_each us body (ks, nq) w1) as [[r2 w2] t2] eqn:E2.
      inv H. now apply IH in E2.
Qed.

End UnitLoopFacts.

(** ** The two back ends are instances of the loop *)

Section FetchFacts.
Context {W : Type} (api : Backend W).

Lemma kubernetes_body_unit query_cache pod acc w :
  kubernetes_body api query_cache pod acc w =
  unit_body (SSH_PERMIT_SERVICE_PREFIX api) metadata_name metadata_name
            (pod_exec api) true query_cache pod acc w.
Proof.
  unfold kubernetes_body, unit_body, unit_matches, mem, pod_exec.
  destruct acc as [ks nq].
  destruct (negb _); [reflexivity|].
  destruct (existsb _ _); [reflexivity|].
  unfold try_except, bind, stream, ret.
  now destruct (connect_get_namespaced_pod_exec api (metadata_name pod) w)
    as [[out|] w1].
Qed.

Lemma docker_body_unit query_cache k acc w :
  docker_body api query_cache k acc w =
  unit_body (SSH_PERMIT_SERVICE_PREFIX api) name id
            (container_exec api) false query_cache k acc w.
Proof.
  unfold docker_body, unit_body, unit_matches, mem, container_exec.
  destruct acc as [ks nq].
  destruct (negb _); [reflexivity|].
  destruct (existsb _ _); [reflexivity|].
  unfold bind, container_exec_run, ret.
  now destruct (exec_run api k w) as [[[code out]|] w1].
Qed.

(** One call of [get_authorized_keys_*]: which units it execs, what it
    returns, and when it raises. *)
Lemma fetch_summary c query_cache w r w' t :
  get_authorized_keys api c query_cache w = (r, w', t) ->
  (forall i, In i (exec_targets t) ->
             mem i query_cache = false /\ In i (eligible api c w)) /\
  (t = [] -> w' = w) /\
  match r with
  | Ok (ks, nq) =>
      ks = map snd (fetched t) /\
      filter (fun i => negb (mem i query_cache)) nq = map fst (fetched t) /\
      filter (fun i => mem i query_cache) nq =
        filter (fun i => mem i query_cache) (eligible api c w) /\
      (failed t = [] -> nq = eligible api c w) /\
      (c = CONTAINER_CLIENT_DOCKER -> failed t = [])
  | Raise e =>
      e = BackendError /\ c = CONTAINER_CLIENT_DOCKER /\ failed t <> []
  end.
Proof.
  intros H. destruct c; simpl in H.
  - unfold get_authorized_keys_kubernetes, bind, gets in H.
    rewrite (for_each_ext _ _ _ (kubernetes_body_unit query_cache)) in H.
    destruct (for_each _ _ _ w) as [[r2 w2] t2] eqn:E. simpl in H. inv H.
    apply unit_loop_summary in E as (Ht & Hw & Hr).
    split; [exact Ht|]. split; [exact Hw|].
    destruct r as [[ks nq]|e].
    + destruct Hr as (dn & -> & -> & Hf & Hc & Hall & _). simpl.
      repeat split; try assumption. discriminate.
    + destruct Hr as (_ & Hno & _). discriminate Hno.
  - unfold get_authorized_keys_docker, bind, gets in H.
    rewrite (for_each_ext _ _ _ (docker_body_unit query_cache)) in H.
    destruct (for_each _ _ _ w) as [[r2 w2] t2] eqn:E. simpl in H. inv H.
    apply unit_loop_summary in E as (Ht & Hw & Hr).
    split; [exact Ht|]. split; [exact Hw|].
    destruct r as [[ks nq]|e].
    + destruct Hr as (dn & -> & -> & Hf & Hc & Hall & Hd). simpl.
      repeat split; try assumption. intros _. now apply Hd.
    + destruct Hr as (-> & _ & Hne). now repeat split.
Qed.

End FetchFacts.

(** ** Files *)

Section HostFacts.
Context {W : Type} (api : Backend W).

Lemma bind_Ok {S A B} (m : M S A) (k : A -> M S B) s a s1 t1 :
  m s = (Ok a, s1, t1) ->
  bind m k s = let '(r, s2, t2) := k a s1 in (r, s2, t1 ++ t2).
Proof. intros H. unfold bind. now rewrite H. Qed.

Lemma for_each_strip lines : forall (acc : list string) (h : Host W),
  for_each lines (fun line query_cache => ret (query_cache ++ [Text.strip line]))
           acc h
  = (Ok (acc ++ map Text.strip lines), h, []).
Proof.
  induction lines as [|l ls IH]; intros acc h; simpl.
  - now rewrite app_nil_r.
  - unfold bind, ret at 1. rewrite IH. now rewrite <- app_assoc.
Qed.

Lemma load_query_cache_eq (h : Host W) :
  load_query_cache h = (Ok (cached_identifiers h), h, []).
Proof.
  destruct h as [ak [text|] l w];
    unfold load_query_cache, cached_identifiers, bind, os_path_isfile, gets,
      readlines, content; simpl; [|reflexivity].
  now rewrite for_each_strip.
Qed.

Lemma for_each_write p (keep : string -> bool) entries :
  forall (h : Host W) s,
    file p h = Some s ->
    for_each entries
      (fun e (_ : unit) =>
         if keep e then file_write p (Text.format_line e) else ret tt) tt h
    = (Ok tt, set_file p (Some (s ++ render (filter keep entries))%string) h, []).
Proof.
  induction entries as [|e rest IH]; intros h s Hs.
  - simpl. rewrite append_nil_r. destruct h, p; simpl in *; now subst.
  - rewrite for_each_cons. cbn [filter]. destruct (keep e).
    + assert (Hw : file_write p (Text.format_line e) h
                   = (Ok tt, set_file p (Some (s ++ Text.format_line e)%string) h, [])).
      { unfold file_write, modify, content. now rewrite Hs. }
      rewrite Hw. rewrite (IH _ (s ++ Text.format_line e)%string).
      * cbn [render]. rewrite append_assoc. destruct h, p; reflexivity.
      * destruct h, p; reflexivity.
    + unfold ret at 1. now rewrite (IH _ s Hs).
Qed.

Lemma write_query_cache_eq (h : Host W) nq :
  write_query_cache nq h
  = (Ok tt, set_file query_cache_file (Some (render nq)) h, []).
Proof.
  unfold write_query_cache, bind, open_for_writing, modify.
  rewrite (for_each_write query_cache_file (fun _ => true) nq _ EmptyString).
  - simpl. replace (filter (fun _ => true) nq) with nq.
    + now destruct h.
    + clear. induction nq as [|e nq IH]; simpl; [reflexivity|now rewrite <- IH].
  - now destruct h.
Qed.

Lemma write_authorized_keys_eq (h : Host W) mode ks :
  write_authorized_keys mode ks h
  = (Ok tt,
     set_file authorized_keys_cache_file
       (Some (base_text mode h ++ render (filter well_formed_key ks))%string) h,
     []).
Proof.
  unfold write_authorized_keys, bind, open_for_writing, modify.
  rewrite (for_each_ext _
             (fun e (_ : unit) =>
                if well_formed_key e
                then file_write authorized_keys_cache_file (Text.format_line e)
                else ret tt)).
  - rewrite (for_each_write authorized_keys_cache_file well_formed_key ks _
               (base_text mode h)).
    + simpl. now destruct h, mode.
    + now destruct h, mode.
  - intros e [] s. unfold well_formed_key.
    now destruct (Text.startswith e "ssh").
Qed.

End HostFacts.

(** ** One invocation *)

Section RunFacts.
Context {W : Type} (api : Backend W).

Lemma on_world_eq {A} (m : M W A) (h : Host W) r w' t :
  m (world h) = (r, w', t) -> on_world m h = (r, set_world w' h, t).
Proof. intros H. unfold on_world. now rewrite H. Qed.

Lemma locked_section_fetch c query_cache :
  match c with
  | CONTAINER_CLIENT_DOCKER =>
      on_world (get_authorized_keys_docker api query_cache)
  | CONTAINER_CLIENT_KUBERNETES =>
      on_world (get_authorized_keys_kubernetes api query_cache)
  end = on_world (get_authorized_keys api c query_cache).
Proof. now destruct c. Qed.

(** A full run without a query cache file stops at [os.remove]. *)
Lemma locked_section_full_missing c argv (h : Host W) :
  full_run argv = true ->
  etc_ssh_query_cache h = None ->
  locked_section api c argv h = (Raise FileNotFoundError, h, []).
Proof.
  intros F N. unfold locked_section. rewrite F.
  destruct h as [ak qf l w]. simpl in N. subst qf. reflexivity.
Qed.

(** Otherwise the section goes as the fetch goes. *)
Lemma locked_section_run c argv (h : Host W) r w' t :
  (full_run argv = true -> etc_ssh_query_cache h <> None) ->
  get_authorized_keys api c
    (if full_run argv then [] else cached_identifiers h) (world h)
    = (r, w', t) ->
  locked_section api c argv h =
  match r with
  | Ok (ks, nq) =>
      (Ok tt,
       Build_Host
         (Some ((if full_run argv then EmptyString
                 else content authorized_keys_cache_file h)
                ++ render (filter well_formed_key ks))%string)
         (Some (render nq)) (cache_files_lock h) w',
       t)
  | Raise e =>
      (Raise e,
       Build_Host (etc_ssh_authorized_keys_cache h)
                  (if full_run argv then None else etc_ssh_query_cache h)
                  (cache_files_lock h) w',
       t)
  end.
Proof.
  intros Hq Hf. unfold locked_section.
  destruct h as [ak qf l w]. simpl in Hq, Hf.
  destruct (full_run argv).
  - destruct qf as [text|]; [|now destruct Hq].
    rewrite (bind_Ok _ _ _ mode_w (Build_Host ak None l w) []) by reflexivity.
    rewrite (bind_Ok _ _ _ _ _ _ (load_query_cache_eq _)).
    cbv beta. rewrite locked_section_fetch.
    pose proof (on_world_eq _ (Build_Host ak None l w) _ _ _ Hf) as Hw.
    unfold bind at 1. cbn [cached_identifiers etc_ssh_query_cache]. rewrite Hw.
    destruct r as [[ks nq]|e]; [|reflexivity].
    rewrite (bind_Ok _ _ _ _ _ _ (write_authorized_keys_eq _ _ _)).
    rewrite write_query_cache_eq. simpl. now rewrite app_nil_r.
  - rewrite (bind_Ok _ _ _ mode_a (Build_Host ak qf l w) []) by reflexivity.
    rewrite (bind_Ok _ _ _ _ _ _ (load_query_cache_eq _)).
    cbv beta. rewrite locked_section_fetch.
    pose proof (on_world_eq _ (Build_Host ak qf l w) _ _ _ Hf) as Hw.
    unfold bind at 1. rewrite Hw.
    destruct r as [[ks nq]|e]; [|reflexivity].
    rewrite (bind_Ok _ _ _ _ _ _ (write_authorized_keys_eq _ _ _)).
    rewrite write_query_cache_eq. simpl. now rewrite app_nil_r.
Qed.

(** The lock is taken: nothing happens. *)
Lemma update_cache_file_busy c argv (h : Host W) :
  cache_files_lock h <> Unlocked ->
  update_cache_file api c argv h = (Ok tt, h, []).
Proof.
  intros L. unfold update_cache_file, try_except, with_lock.
  destruct (cache_files_lock h); [now destruct L | reflexivity | reflexivity].
Qed.

Lemma update_cache_file_full_missing c argv (h : Host W) :
  cache_files_lock h = Unlocked ->
  full_run argv = true ->
  etc_ssh_query_cache h = None ->
  update_cache_file api c argv h
  = (Raise FileNotFoundError, set_lock Unlocked h, []).
Proof.
  intros L F N. unfold update_cache_file, try_except, with_lock.
  rewrite (locked_section_full_missing c argv (set_lock LockedHere h) F)
    by (now destruct h).
  destruct h as [ak qf [] w]; simpl in *; try reflexivity; congruence.
Qed.

(** The lock is free: the invocation goes as the fetch goes, and leaves
    the lock free. *)
Lemma update_cache_file_run c argv (h : Host W) r w' t :
  cache_files_lock h = Unlocked ->
  (full_run argv = true -> etc_ssh_query_cache h <> None) ->
  get_authorized_keys api c
    (if full_run argv then [] else cached_identifiers h) (world h)
    = (r, w', t) ->
  update_cache_file api c argv h =
  match r with
  | Ok (ks, nq) =>
      (Ok tt,
       Build_Host
         (Some ((if full_run argv then EmptyString
                 else content authorized_keys_cache_file h)
                ++ render (filter well_formed_key ks))%string)
         (Some (render nq)) Unlocked w',
       t)
  | Raise e =>
      (Raise BackendError,
       Build_Host (etc_ssh_authorized_keys_cache h)
                  (if full_run argv then None else etc_ssh_query_cache h)
                  Unlocked w',
       t)
  end.
Proof.
  intros L Hq Hf.
  pose proof (fetch_summary api _ _ _ _ _ _ Hf) as (_ & _ & Hr).
  unfold update_cache_file, try_except, with_lock.
  rewrite (locked_section_run c argv (set_lock LockedHere h) r w' t);
    [| now destruct h | now destruct h].
  destruct r as [[ks nq]|e].
  - destruct h as [ak qf [] w]; simpl in *; try reflexivity; congruence.
  - destruct Hr as (-> & _).
    destruct h as [ak qf [] w]; simpl in *; try congruence;
      unfold set_lock; simpl; now rewrite app_nil_r.
Qed.

End RunFacts.

(** ** Consequences used by the properties below *)

Section RunConsequences.
Context {W : Type} (api : Backend W).


(** When every eligible unit is already in the query cache, the fetch
    execs nothing and hands the eligible units back. *)
Lemma fetch_all_cached c query_cache w :
  (forall i, In i (eligible api c w) -> mem i query_cache = true) ->
  get_authorized_keys api c query_cache w = (Ok ([], eligible api c w), w, []).
Proof.
  intros Hall.
  destruct (get_authorized_keys api c query_cache w) as [[r w'] t] eqn:E.
  destruct (fetch_summary api _ _ _ _ _ _ E) as (Ht & Hw & Hr).
  assert (t = []) as ->.
  { destruct t as [|[i o] t]; [reflexivity|].
    destruct (Ht i (or_introl eq_refl)) as [Hf Hi].
    rewrite (Hall i Hi) in Hf. discriminate. }
  rewrite (Hw eq_refl).
  destruct r as [[ks nq]|e].
  - destruct Hr as (-> & _ & _ & Hnq & _). now rewrite (Hnq eq_refl).
  - destruct Hr as (_ & _ & Hne). now destruct Hne.
Qed.

(** Every entry of a returned query cache is an eligible identifier. *)
Lemma fetch_cache_eligible c query_cache w ks nq w' t :
  get_authorized_keys api c query_cache w = (Ok (ks, nq), w', t) ->
  forall i, In i nq -> In i (eligible api c w).
Proof.
  intros H i Hi.
  destruct (fetch_summary api _ _ _ _ _ _ H) as (Ht & _ & _ & Hf & Hc & _).
  destruct (mem i query_cache) eqn:Em.
  - assert (Hin : In i (filter (fun j => mem j query_cache) nq))
      by (apply filter_In; now split).
    rewrite Hc in Hin. now apply filter_In in Hin.
  - assert (Hin : In i (filter (fun j => negb (mem j query_cache)) nq))
      by (apply filter_In; split; [exact Hi|now rewrite Em]).
    rewrite Hf in Hin. apply fetched_targets in Hin. now apply Ht.
Qed.

Lemma forallb_incl {A} (p : A -> bool) (l l' : list A) :
  (forall x, In x l -> In x l') -> forallb p l' = true -> forallb p l = true.
Proof.
  intros Hi H. rewrite forallb_forall in *. auto.
Qed.

(** What is known when an invocation that held the lock returns normally. *)
Lemma run_completed c argv (h h' : Host W) t :
  cache_files_lock h = Unlocked ->
  update_cache_file api c argv h = (Ok tt, h', t) ->
  exists ks nq,
    get_authorized_keys api c (prior_query_cache argv h) (world h)
      = (Ok (ks, nq), world h', t) /\
    h' = Build_Host
           (Some ((if full_run argv then EmptyString
                   else content authorized_keys_cache_file h)
                  ++ render (filter well_formed_key ks))%string)
           (Some (render nq)) Unlocked (world h').
Proof.
  intros L H.
  destruct (full_run argv) eqn:F.
  - destruct (etc_ssh_query_cache h) as [text|] eqn:Q.
    + destruct (get_authorized_keys api c [] (world h)) as [[r w'] t0] eqn:E.
      rewrite (update_cache_file_run api c argv h r w' t0 L) in H.
      * destruct r as [[ks nq]|e]; [|discriminate]. inv H.
        exists ks, nq. unfold prior_query_cache. rewrite F. now split.
      * rewrite Q. discriminate.
      * now rewrite F.
    + rewrite (update_cache_file_full_missing api c argv h L F Q) in H.
      discriminate.
  - destruct (get_authorized_keys api c (cached_identifiers h) (world h))
      as [[r w'] t0] eqn:E.
    rewrite (update_cache_file_run api c argv h r w' t0 L) in H.
    + destruct r as [[ks nq]|e]; [|discriminate]. inv H.
      exists ks, nq. unfold prior_query_cache. rewrite F. now split.
    + rewrite F. discriminate.
    + now rewrite F.
Qed.

(** No invocation execs into a unit that its query cache lists. *)
Lemma run_skips_cached c argv (h h' : Host W) r t i :
  update_cache_file api c argv h = (r, h', t) ->
  In i (prior_query_cache argv h) ->
  ~ In i (exec_targets t).
Proof.
  intros H Hi Ht.
  destruct (lock_state_eq_dec (cache_files_lock h) Unlocked) as [L|L];
    [|rewrite (update_cache_file_busy api c argv h L) in H; inv H; exact Ht].
  - destruct (full_run argv) eqn:F.
    + unfold prior_query_cache in Hi. rewrite F in Hi. exact Hi.
    + unfold prior_query_cache in Hi. rewrite F in Hi.
      destruct (get_authorized_keys api c (cached_identifiers h) (world h))
        as [[r0 w'] t0] eqn:E.
      rewrite (update_cache_file_run api c argv h r0 w' t0 L) in H;
        [| rewrite F; discriminate | now rewrite F].
      assert (t = t0) as -> by (destruct r0 as [[ks nq]|e]; now inv H).
      destruct (fetch_summary api _ _ _ _ _ _ E) as (Hs & _).
      destruct (Hs i Ht) as [Hm _].
      apply mem_In in Hi. congruence.
Qed.

(** The Kubernetes client never lets a failed exec out of the loop. *)
Lemma kubernetes_run_completes argv (h : Host W) :
  cache_files_lock h = Unlocked ->
  (full_run argv = true -> etc_ssh_query_cache h <> None) ->
  exists h' t,
    update_cache_file api CONTAINER_CLIENT_KUBERNETES argv h = (Ok tt, h', t).
Proof.
  intros L Hq.
  destruct (get_authorized_keys api CONTAINER_CLIENT_KUBERNETES
              (if full_run argv then [] else cached_identifiers h) (world h))
    as [[r w'] t] eqn:E.
  rewrite (update_cache_file_run api _ argv h r w' t L Hq E).
  destruct (fetch_summary api _ _ _ _ _ _ E) as (_ & _ & Hr).
  destruct r as [[ks nq]|e].
  - eauto.
  - destruct Hr as (_ & Hd & _). discriminate Hd.
Qed.

(** The Docker client does: one failed exec ends the invocation with the
    exception, and neither file is written. *)
Lemma docker_run_aborts argv (h : Host W) r w' t :
  cache_files_lock h = Unlocked ->
  (full_run argv = true -> etc_ssh_query_cache h <> None) ->
  get_authorized_keys api CONTAINER_CLIENT_DOCKER
    (prior_query_cache argv h) (world h) = (r, w', t) ->
  failed t <> [] ->
  update_cache_file api CONTAINER_CLIENT_DOCKER argv h
  = (Raise BackendError,
     Build_Host (etc_ssh_authorized_keys_cache h)
                (if full_run argv then None else etc_ssh_query_cache h)
                Unlocked w',
     t).
Proof.
  intros L Hq E Hfail. unfold prior_query_cache in E.
  rewrite (update_cache_file_run api _ argv h r w' t L Hq E).
  destruct (fetch_summary api _ _ _ _ _ _ E) as (_ & _ & Hr).
  destruct r as [[ks nq]|e]; [|reflexivity].
  destruct Hr as (_ & _ & _ & _ & Hd). now destruct Hfail; apply Hd.
Qed.

End RunConsequences.

(** ** The back end selection *)

(** Kubernetes is taken whenever its configuration loads; Docker only when
    that file is not found; and with neither, the script has no client and
    ends with status 1 before anything else. *)
Lemma select_container_client_order (docker_ping : result unit) :
  select_container_client (Ok tt) docker_ping = Ok (Some CONTAINER_CLIENT_KUBERNETES)
  /\ select_container_client (Raise FileNotFoundError) (Ok tt)
     = Ok (Some CONTAINER_CLIENT_DOCKER)
  /\ select_container_client (Raise FileNotFoundError) (Raise FileNotFoundError)
     = Ok None.
Proof. repeat split. Qed.

Lemma script_without_client {W : Type} (api : Backend W) argv (h : Host W) :
  script api None argv h = (1, h, []).
Proof. reflexivity. Qed.

(** * The properties *)

(** ** C1: a failed exec and the rest of the run *)

(** C1.  The claim: a unit whose key cannot be fetched is left out and the run
    goes on and persists its results, with the Kubernetes and with the Docker
    client.  The Docker loop has no [try] around [exec_run].  On a host whose
    cache lists nothing, with container 0a1f unreachable and container 7c3e
    answering: the Docker run stops at 0a1f with the exception, exits with
    status 1, never execs into 7c3e and writes neither file; the Kubernetes
    run on the same fleet skips ws-a, fetches ws-b and persists both files. *)
Theorem C1_docker_fetch_failure_aborts_the_run :
  let api := Demo.api "ws-" in
  script api (Some CONTAINER_CLIENT_DOCKER) Demo.incremental
         (Demo.host None None Unlocked (Demo.fleet ["0a1f"]))
  = (1, Demo.host None None Unlocked (Demo.fleet []), [("0a1f", None)])
  /\
  script api (Some CONTAINER_CLIENT_KUBERNETES) Demo.incremental
         (Demo.host None None Unlocked (Demo.fleet ["ws-a"]))
  = (0,
     Demo.host (Some (render [Demo.key_b])) (Some (render ["ws-b"])) Unlocked
               (Demo.fleet []),
     [("ws-a", None); ("ws-b", Some Demo.key_b)]).
Proof. split; reflexivity. Qed.

(** ** C2: a full run on a host without a query cache file *)

(** C2.  The claim: a full rebuild with no persisted query cache does not
    fail, the prior state being empty.  [os.remove(query_cache_file)] is
    called without a check that the file is there: with the lock free and no
    query cache file, a full run raises FileNotFoundError before any exec,
    exits with status 1 and writes nothing. *)
Theorem C2_full_run_without_query_cache_file_raises :
  let api := Demo.api "ws-" in
  let h := Demo.host (Some (render ["ssh-rsa STALE"])) None Unlocked (Demo.fleet []) in
  update_cache_file api CONTAINER_CLIENT_KUBERNETES Demo.full h
    = (Raise FileNotFoundError, h, [])
  /\ script api (Some CONTAINER_CLIENT_KUBERNETES) Demo.full h = (1, h, [])
  /\ script api (Some CONTAINER_CLIENT_DOCKER) Demo.full h = (1, h, []).
Proof. repeat split; reflexivity. Qed.

(** ** C3: the new query cache *)

(** C3.  Whenever [get_authorized_keys_kubernetes] or
    [get_authorized_keys_docker] returns, the query cache it returns holds
    exactly (a) the identifiers of the given query cache that belong to a
    running unit whose name starts with the prefix, and (b) the identifiers
    of the units whose exec succeeded in this call; and no exec at all was made
    for an identifier of the given query cache. *)
Theorem C3_new_query_cache_is_carried_plus_fetched
    {W : Type} (api : Backend W) (c : container_client_kind)
    (query_cache : list string) (w w' : W)
    (authorized_keys new_query_cache : list string) (t : list exec_event) :
  get_authorized_keys api c query_cache w
    = (Ok (authorized_keys, new_query_cache), w', t) ->
  (forall i, In i new_query_cache <->
             (In i query_cache /\ In i (eligible api c w))
             \/ In i (map fst (fetched t)))
  /\ (forall i, In i query_cache -> ~ In i (exec_targets t)).
Proof.
  intros H.
  destruct (fetch_summary api _ _ _ _ _ _ H) as (Ht & _ & _ & Hf & Hc & _).
  split.
  - intros i. split.
    + intros Hi. destruct (mem i query_cache) eqn:Em.
      * left. split; [now apply mem_In|].
        assert (Hin : In i (filter (fun j => mem j query_cache) new_query_cache))
          by (apply filter_In; now split).
        rewrite Hc in Hin. now apply filter_In in Hin.
      * right. rewrite <- Hf. apply filter_In. split; [exact Hi|now rewrite Em].
    + intros [[Hq He]|Hi].
      * assert (Hin : In i (filter (fun j => mem j query_cache) (eligible api c w)))
          by (apply filter_In; split; [exact He|now apply mem_In]).
        rewrite <- Hc in Hin. now apply filter_In in Hin.
      * rewrite <- Hf in Hi. now apply filter_In in Hi.
  - intros i Hq Hi. destruct (Ht i Hi) as [Hm _].
    apply mem_In in Hq. congruence.
Qed.

Lemma C3_witness :
  let api := Demo.api "ws-" in
  get_authorized_keys api CONTAINER_CLIENT_DOCKER ["0a1f"; "dead"] (Demo.fleet [])
    = (Ok ([Demo.key_b], ["0a1f"; "7c3e"]), Demo.fleet [],
       [("7c3e", Some Demo.key_b)])
  /\ ((forall i, In i ["0a1f"; "7c3e"] <->
                 (In i ["0a1f"; "dead"]
                  /\ In i (eligible api CONTAINER_CLIENT_DOCKER (Demo.fleet [])))
                 \/ In i (map fst (fetched [("7c3e", Some Demo.key_b)])))
      /\ (forall i, In i ["0a1f"; "dead"] ->
                    ~ In i (exec_targets [("7c3e", Some Demo.key_b)]))).
Proof.
  split; [reflexivity|].
  exact (C3_new_query_cache_is_carried_plus_fetched
           (Demo.api "ws-") CONTAINER_CLIENT_DOCKER ["0a1f"; "dead"]
           (Demo.fleet []) (Demo.fleet []) [Demo.key_b] ["0a1f"; "7c3e"]
           [("7c3e", Some Demo.key_b)] eq_refl).
Defined.

(** ** C4: an incremental run against an empty fleet *)

(** C4, as stated, fails: with ws-a in the persisted query cache and no
    unit running, an incremental run completes, and the query cache file it
    leaves is empty, not the one it found. *)
Lemma C4_counterexample :
  let api := Demo.api "ws-" in
  let h := Demo.host (Some (render [Demo.key_a])) (Some (render ["ws-a"]))
                     Unlocked Demo.empty_fleet in
  cached_identifiers h = ["ws-a"]
  /\ list_namespaced_pod api (world h) = []
  /\ exists h',
       update_cache_file api CONTAINER_CLIENT_KUBERNETES Demo.incremental h
         = (Ok tt, h', [])
       /\ etc_ssh_authorized_keys_cache h' = etc_ssh_authorized_keys_cache h
       /\ cached_identifiers h' = []
       /\ etc_ssh_query_cache h' <> etc_ssh_query_cache h.
Proof.
  split; [reflexivity|]. split; [reflexivity|].
  eexists. split; [reflexivity|].
  split; [reflexivity|]. split; [reflexivity|]. discriminate.
Qed.

(** C4, amended.  With the lock free, an incremental run that finds no
    running unit with the prefix makes no exec and appends nothing to the
    authorized-keys file (which it creates empty when missing), and it
    rewrites the query cache file to the empty text: an identifier is carried
    over only while its unit is listed. *)
Theorem C4_incremental_run_on_empty_fleet
    {W : Type} (api : Backend W) (c : container_client_kind)
    (argv : list string) (h : Host W) :
  cache_files_lock h = Unlocked ->
  full_run argv = false ->
  eligible api c (world h) = [] ->
  update_cache_file api c argv h
  = (Ok tt,
     Build_Host (Some (content authorized_keys_cache_file h))
                (Some EmptyString) Unlocked (world h),
     []).
Proof.
  intros L F He.
  assert (E : get_authorized_keys api c
                (if full_run argv then [] else cached_identifiers h) (world h)
              = (Ok ([], []), world h, [])).
  { pose proof (fetch_all_cached api c
                  (if full_run argv then [] else cached_identifiers h) (world h))
      as E.
    rewrite He in E. apply E. intros i []. }
  assert (Hq : full_run argv = true -> etc_ssh_query_cache h <> None)
    by (rewrite F; discriminate).
  rewrite (update_cache_file_run api c argv h _ _ _ L Hq E).
  rewrite F. simpl. now rewrite append_nil_r.
Qed.

Lemma C4_witness :
  let api := Demo.api "ws-" in
  let h := Demo.host (Some (render [Demo.key_a])) (Some (render ["0a1f"]))
                     Unlocked Demo.empty_fleet in
  cache_files_lock h = Unlocked
  /\ full_run Demo.incremental = false
  /\ eligible api CONTAINER_CLIENT_DOCKER (world h) = []
  /\ update_cache_file api CONTAINER_CLIENT_DOCKER Demo.incremental h
     = (Ok tt,
        Build_Host (Some (content authorized_keys_cache_file h))
                   (Some EmptyString) Unlocked (world h),
        []).
Proof.
  split; [reflexivity|]. split; [reflexivity|]. split; [reflexivity|].
  apply (C4_incremental_run_on_empty_fleet (Demo.api "ws-")
           CONTAINER_CLIENT_DOCKER Demo.incremental);
    [reflexivity | reflexivity | reflexivity].
Defined.

(** ** C5: a full rebuild *)

(** C5.  When an invocation with the argument "full" holds the lock and
    returns normally, the authorized-keys file holds exactly the fetched
    texts of this run that start with "ssh", one per line and in fetch
    order, whatever the file held before; and the query cache file holds
    exactly the identifiers of the units fetched in this run (none is
    skipped, the query cache of a full run being empty). *)
Theorem C5_full_rebuild_replaces_both_files
    {W : Type} (api : Backend W) (c : container_client_kind)
    (argv : list string) (h h' : Host W) (t : list exec_event) :
  cache_files_lock h = Unlocked ->
  full_run argv = true ->
  update_cache_file api c argv h = (Ok tt, h', t) ->
  etc_ssh_authorized_keys_cache h'
    = Some (render (filter well_formed_key (map snd (fetched t))))
  /\ etc_ssh_query_cache h' = Some (render (map fst (fetched t))).
Proof.
  intros L F H.
  destruct (run_completed api c argv h h' t L H) as (ks & nq & E & ->).
  unfold prior_query_cache in E. rewrite F in *.
  destruct (fetch_summary api _ _ _ _ _ _ E) as (_ & _ & -> & Hf & _).
  assert (Hn : filter (fun i => negb (mem i [])) nq = nq).
  { clear. induction nq as [|i nq IH]; simpl; [reflexivity|f_equal; exact IH]. }
  rewrite Hn in Hf. subst nq. simpl. now split.
Qed.

Lemma C5_witness :
  let api := Demo.api "ws-" in
  let h := Demo.host (Some (render ["ssh-rsa STALE"])) (Some (render ["ws-a"; "gone"]))
                     Unlocked (Demo.fleet ["ws-b"]) in
  let h' := Demo.host (Some (render [Demo.key_a])) (Some (render ["ws-a"]))
                      Unlocked (Demo.fleet []) in
  let t := [("ws-a", Some Demo.key_a); ("ws-b", None)] in
  cache_files_lock h = Unlocked
  /\ full_run Demo.full = true
  /\ update_cache_file api CONTAINER_CLIENT_KUBERNETES Demo.full h = (Ok tt, h', t)
  /\ etc_ssh_authorized_keys_cache h'
       = Some (render (filter well_formed_key (map snd (fetched t))))
  /\ etc_ssh_query_cache h' = Some (render (map fst (fetched t))).
Proof.
  split; [reflexivity|]. split; [reflexivity|]. split; [reflexivity|].
  apply (C5_full_rebuild_replaces_both_files (Demo.api "ws-")
           CONTAINER_CLIENT_KUBERNETES Demo.full
           (Demo.host (Some (render ["ssh-rsa STALE"]))
                      (Some (render ["ws-a"; "gone"])) Unlocked (Demo.fleet ["ws-b"])));
    [reflexivity | reflexivity | reflexivity].
Defined.

(** ** C6: texts that are not keys *)



(** ** C7: two incremental runs in a row *)

(** A second pass over the same listing, in a world that the execs leave
    alone, with the query cache that the first pass returned. *)
Section UnitLoopRerun.
Context {W U : Type}.
Variable prefix : string.
Variable uname ident : U -> string.
Variable exec : U -> W -> option string * W.
Hypothesis exec_still : forall u w, snd (exec u w) = w.

Local Abbreviation body := (unit_body prefix uname ident exec).

Lemma unit_body_skip tolerant qc u ks nq w :
  unit_matches prefix uname u = false ->
  body tolerant qc u (ks, nq) w = (Ok (ks, nq), w, []).
Proof. intros Em. unfold unit_body. now rewrite Em. Qed.

Lemma unit_body_carry tolerant qc u ks nq w :
  unit_matches prefix uname u = true ->
  mem (ident u) qc = true ->
  body tolerant qc u (ks, nq) w = (Ok (ks, nq ++ [ident u]), w, []).
Proof. intros Em Ec. unfold unit_body. now rewrite Em, Ec. Qed.

Lemma unit_body_exec tolerant qc u ks nq w :
  unit_matches prefix uname u = true ->
  mem (ident u) qc = false ->
  body tolerant qc u (ks, nq) w =
  match fst (exec u w) with
  | Some out => (Ok (ks ++ [out], nq ++ [ident u]), w, [(ident u, Some out)])
  | None => (if tolerant then Ok (ks, nq) else Raise BackendError, w,
             [(ident u, None)])
  end.
Proof.
  intros Em Ec. unfold unit_body. rewrite Em, Ec. simpl.
  pose proof (exec_still u w) as Hw.
  destruct (exec u w) as [[out|] w0]; simpl in *; now subst.
Qed.

Lemma unit_body_still tolerant qc u acc w r1 w1 t1 :
  body tolerant qc u acc w = (r1, w1, t1) -> w1 = w.
Proof.
  destruct acc as [ks nq].
  destruct (unit_matches prefix uname u) eqn:Em.
  - destruct (mem (ident u) qc) eqn:Ec.
    + rewrite (unit_body_carry _ _ _ _ _ _ Em Ec). intros H. now inv H.
    + rewrite (unit_body_exec _ _ _ _ _ _ Em Ec).
      destruct (fst (exec u w)); intros H; now inv H.
  - rewrite (unit_body_skip _ _ _ _ _ _ Em). intros H. now inv H.
Qed.

Lemma unit_loop_still tolerant qc (units : list U) :
  forall acc w r w' t,
    for_each units (body tolerant qc) acc w = (r, w', t) -> w' = w.
Proof.
  induction units as [|u us IH]; intros acc w r w' t H.
  - simpl in H. now inv H.
  - rewrite for_each_cons in H.
    destruct (body tolerant qc u acc w) as [[r1 w1] t1] eqn:Eb.
    apply unit_body_still in Eb. subst w1.
    destruct r1 as [acc1|e]; [|now inv H].
    destruct (for_each us (body tolerant qc) acc1 w) as [[r2 w2] t2] eqn:E2.
    inv H. now apply IH in E2.
Qed.

(** The pass that catches failed execs: what it adds to the query cache
    comes from the given query cache or from a unit that answers, and a
    second pass with any query cache that holds what was added, and nothing
    of a unit that neither was listed before nor answers, adds the same
    entries and returns no key. *)
Lemma unit_loop_rerun qc (units : list U) :
  forall ks nq w r w' t,
    for_each units (body true qc) (ks, nq) w = (r, w', t) ->
    exists ks' dn,
      r = Ok (ks', nq ++ dn)
      /\ (forall i, In i dn ->
            mem i qc = true
            \/ exists u out, In u units /\ ident u = i /\ fst (exec u w) = Some out)
      /\ forall qc',
           (forall i, In i dn -> mem i qc' = true) ->
           (forall u, In u units -> unit_matches prefix uname u = true ->
                      mem (ident u) qc' = true ->
                      mem (ident u) qc = true
                      \/ exists out, fst (exec u w) = Some out) ->
           forall ks2 nq2, exists t2,
             for_each units (body true qc') (ks2, nq2) w
             = (Ok (ks2, nq2 ++ dn), w, t2).
Proof.
  induction units as [|u us IH]; intros ks nq w r w' t H.
  - simpl in H. inv H. exists ks, []. rewrite app_nil_r.
    split; [reflexivity|]. split; [intros i []|].
    intros qc' _ _ ks2 nq2. exists []. simpl. now rewrite app_nil_r.
  - rewrite for_each_cons in H.
    destruct (unit_matches prefix uname u) eqn:Em.
    + destruct (mem (ident u) qc) eqn:Ec.
      * (* carried over *)
        rewrite (unit_body_carry _ _ _ _ _ _ Em Ec) in H.
        destruct (for_each us (body true qc) (ks, nq ++ [ident u]) w)
          as [[r2 w2] t2] eqn:E2.
        inv H. destruct (IH _ _ _ _ _ _ E2) as (ks' & dn & -> & Hsrc & Hre).
        exists ks', (ident u :: dn). rewrite <- app_assoc.
        split; [reflexivity|]. split.
        { intros i [<-|Hi]; [now left|].
          destruct (Hsrc i Hi) as [Hc|(u0 & out & Hin & Hid & Ho)]; [now left|].
          right. exists u0, out. split; [now right|now split]. }
        intros qc' H1 H2 ks2 nq2.
        destruct (Hre qc' (fun i Hi => H1 i (or_intror Hi))
                      (fun u0 Hin => H2 u0 (or_intror Hin)) ks2 (nq2 ++ [ident u]))
          as [t3 Ht3].
        exists t3. rewrite for_each_cons.
        rewrite (unit_body_carry _ _ _ _ _ _ Em (H1 _ (or_introl eq_refl))).
        rewrite Ht3. now rewrite <- app_assoc.
      * rewrite (unit_body_exec _ _ _ _ _ _ Em Ec) in H.
        destruct (fst (exec u w)) as [out|] eqn:Ex.
        -- (* fetched *)
           destruct (for_each us (body true qc) (ks ++ [out], nq ++ [ident u]) w)
             as [[r2 w2] t2] eqn:E2.
           inv H. destruct (IH _ _ _ _ _ _ E2) as (ks' & dn & -> & Hsrc & Hre).
           exists ks', (ident u :: dn). rewrite <- app_assoc.
           split; [reflexivity|]. split.
           { intros i [<-|Hi].
             - right. exists u, out. split; [now left|now split].
             - destruct (Hsrc i Hi) as [Hc|(u0 & o & Hin & Hid & Ho)]; [now left|].
               right. exists u0, o. split; [now right|now split]. }
           intros qc' H1 H2 ks2 nq2.
           destruct (Hre qc' (fun i Hi => H1 i (or_intror Hi))
                         (fun u0 Hin => H2 u0 (or_intror Hin)) ks2 (nq2 ++ [ident u]))
             as [t3 Ht3].
           exists t3. rewrite for_each_cons.
           rewrite (unit_body_carry _ _ _ _ _ _ Em (H1 _ (or_introl eq_refl))).
           rewrite Ht3. now rewrite <- app_assoc.
        -- (* the exec raised and was caught *)
           destruct (for_each us (body true qc) (ks, nq) w)
             as [[r2 w2] t2] eqn:E2.
           inv H. destruct (IH _ _ _ _ _ _ E2) as (ks' & dn & -> & Hsrc & Hre).
           exists ks', dn. split; [reflexivity|]. split.
           { intros i Hi.
             destruct (Hsrc i Hi) as [Hc|(u0 & o & Hin & Hid & Ho)]; [now left|].
             right. exists u0, o. split; [now right|now split]. }
           intros qc' H1 H2 ks2 nq2.
           assert (Ec' : mem (ident u) qc' = false).
           { destruct (mem (ident u) qc') eqn:Ec'; [|reflexivity].
             destruct (H2 u (or_introl eq_refl) Em Ec') as [Hc|[o Ho]];
               congruence. }
           destruct (Hre qc' H1 (fun u0 Hin => H2 u0 (or_intror Hin)) ks2 nq2)
             as [t3 Ht3].
           exists ((ident u, None) :: t3). rewrite for_each_cons.
           rewrite (unit_body_exec _ _ _ _ _ _ Em Ec'), Ex.
           now rewrite Ht3.
    + (* the name does not start with the prefix *)
      rewrite (unit_body_skip _ _ _ _ _ _ Em) in H.
      destruct (for_each us (body true qc) (ks, nq) w) as [[r2 w2] t2] eqn:E2.
      inv H. destruct (IH _ _ _ _ _ _ E2) as (ks' & dn & -> & Hsrc & Hre).
      exists ks', dn. split; [reflexivity|]. split.
      { intros i Hi.
        destruct (Hsrc i Hi) as [Hc|(u0 & o & Hin & Hid & Ho)]; [now left|].
        right. exists u0, o. split; [now right|now split]. }
      intros qc' H1 H2 ks2 nq2.
      destruct (Hre qc' H1 (fun u0 Hin => H2 u0 (or_intror Hin)) ks2 nq2)
        as [t3 Ht3].
      exists t3. rewrite for_each_cons.
      rewrite (unit_body_skip _ _ _ _ _ _ Em). now rewrite Ht3.
Qed.

End UnitLoopRerun.

Section FetchRerun.
Context {W : Type} (api : Backend W).

Lemma pod_exec_still :
  exec_keeps_world api CONTAINER_CLIENT_KUBERNETES ->
  forall p w, snd (pod_exec api p w) = w.
Proof. intros H p w. apply H. Qed.

Lemma container_exec_still :
  exec_keeps_world api CONTAINER_CLIENT_DOCKER ->
  forall k w, snd (container_exec api k w) = w.
Proof.
  intros H k w. unfold container_exec. pose proof (H k w) as Hw.
  now destruct (exec_run api k w) as [[r|] w0].
Qed.

(** A fetch leaves such a world as it found it. *)
Lemma fetch_still c query_cache w r w' t :
  exec_keeps_world api c ->
  get_authorized_keys api c query_cache w = (r, w', t) ->
  w' = w.
Proof.
  intros Hs H. destruct c; simpl in H.
  - unfold get_authorized_keys_kubernetes, bind, gets in H.
    rewrite (for_each_ext _ _ _ (kubernetes_body_unit api query_cache)) in H.
    destruct (for_each _ _ _ w) as [[r2 w2] t2] eqn:E. simpl in H. inv H.
    exact (unit_loop_still _ _ _ _ (pod_exec_still Hs) _ _ _ _ _ _ _ _ E).
  - unfold get_authorized_keys_docker, bind, gets in H.
    rewrite (for_each_ext _ _ _ (docker_body_unit api query_cache)) in H.
    destruct (for_each _ _ _ w) as [[r2 w2] t2] eqn:E. simpl in H. inv H.
    exact (unit_loop_still _ _ _ _ (container_exec_still Hs) _ _ _ _ _ _ _ _ E).
Qed.

(** A fetch with the query cache that a fetch just returned, in such a
    world, returns no key and the same query cache. *)
Lemma fetch_rerun c query_cache w ks nq w' t :
  exec_keeps_world api c ->
  get_authorized_keys api c query_cache w = (Ok (ks, nq), w', t) ->
  exists t2, get_authorized_keys api c nq w = (Ok ([], nq), w, t2).
Proof.
  intros Hs H. destruct c.
  - simpl in *.
    unfold get_authorized_keys_kubernetes, bind, gets in *.
    rewrite (for_each_ext _ _ _ (kubernetes_body_unit api query_cache)) in H.
    destruct (for_each _ _ _ w) as [[r2 w2] t2] eqn:E. simpl in H. inv H.
    destruct (unit_loop_rerun _ _ _ _ (pod_exec_still Hs) _ _ _ _ _ _ _ _ E)
      as (ks' & dn & Hr & Hsrc & Hre).
    inv Hr. simpl in *.
    destruct (Hre dn (fun i Hi => proj2 (mem_In i dn) Hi)) with (ks2 := @nil string)
      (nq2 := @nil string) as [t3 Ht3].
    + intros u Hin Em Hc. apply mem_In in Hc.
      destruct (Hsrc _ Hc) as [Hq|(u0 & out & _ & Hid & Ho)]; [now left|].
      right. exists out. unfold pod_exec in *. now rewrite <- Hid.
    + exists t3.
      rewrite (for_each_ext _ _ _ (kubernetes_body_unit api dn)).
      now rewrite Ht3.
  - destruct (fetch_summary api _ _ _ _ _ _ H) as (_ & _ & _ & _ & _ & Hall & Hd).
    pose proof (fetch_still _ _ _ _ _ _ Hs H) as ->.
    rewrite (Hall (Hd eq_refl)). exists [].
    apply fetch_all_cached. intros i Hi. now apply mem_In.
Qed.

End FetchRerun.

(** C7.  Two incremental invocations in a row against a fleet that stays as
    it is (no exec changes it: a unit that answers keeps answering, one out
    of reach stays so), with identifiers free of whitespace.  However the
    first invocation ends, the second one ends the same way and leaves the
    host exactly as the first one left it: no key is appended to the
    authorized-keys file and the persisted query cache is unchanged.  This
    holds for any prior query cache, empty or not, and also when execs of
    the first run failed: the second run tries those units again and they
    fail again. *)
Theorem C7_second_incremental_run_leaves_the_host_as_it_is
    {W : Type} (api : Backend W) (c : container_client_kind)
    (argv1 argv2 : list string) (h h1 : Host W) (r1 : result unit)
    (t1 : list exec_event) :
  exec_keeps_world api c ->
  full_run argv1 = false ->
  full_run argv2 = false ->
  forallb plain_identifier (eligible api c (world h)) = true ->
  update_cache_file api c argv1 h = (r1, h1, t1) ->
  exists t2, update_cache_file api c argv2 h1 = (r1, h1, t2).
Proof.
  intros Hs F1 F2 Hplain H1.
  destruct (lock_state_eq_dec (cache_files_lock h) Unlocked) as [L|L].
  - assert (Hq1 : full_run argv1 = true -> etc_ssh_query_cache h <> None)
      by (rewrite F1; discriminate).
    destruct (get_authorized_keys api c
                (if full_run argv1 then [] else cached_identifiers h) (world h))
      as [[r0 w'] t0] eqn:E.
    rewrite (update_cache_file_run api c argv1 h r0 w' t0 L Hq1 E) in H1.
    rewrite F1 in E, H1.
    pose proof (fetch_still api _ _ _ _ _ _ Hs E) as Hw. subst w'.
    destruct r0 as [[ks nq]|e]; inv H1.
    + (* the first run returned *)
      destruct (fetch_rerun api _ _ _ _ _ _ _ Hs E) as [t2 E2].
      exists t2.
      set (h1 := Build_Host _ (Some (render nq)) Unlocked (world h)).
      assert (Hc : cached_identifiers h1 = nq).
      { unfold cached_identifiers. simpl. apply parse_render.
        exact (forallb_incl _ _ _ (fetch_cache_eligible api _ _ _ _ _ _ _ E) Hplain). }
      assert (Hq2 : full_run argv2 = true -> etc_ssh_query_cache h1 <> None)
        by (rewrite F2; discriminate).
      assert (E2' : get_authorized_keys api c
                      (if full_run argv2 then [] else cached_identifiers h1)
                      (world h1)
                    = (Ok ([], nq), world h, t2))
        by (rewrite F2, Hc; exact E2).
      rewrite (update_cache_file_run api c argv2 h1 _ _ _ eq_refl Hq2 E2').
      rewrite F2. subst h1. unfold content. simpl. now rewrite append_nil_r.
    + (* the first run raised *)
      exists t1.
      set (h1 := Build_Host (etc_ssh_authorized_keys_cache h)
                            (etc_ssh_query_cache h) Unlocked (world h)).
      assert (Hq2 : full_run argv2 = true -> etc_ssh_query_cache h1 <> None)
        by (rewrite F2; discriminate).
      assert (E2' : get_authorized_keys api c
                      (if full_run argv2 then [] else cached_identifiers h1)
                      (world h1)
                    = (Raise e, world h, t1))
        by (rewrite F2; exact E).
      rewrite (update_cache_file_run api c argv2 h1 _ _ _ eq_refl Hq2 E2').
      now rewrite F2.
  - (* the lock was taken *)
    rewrite (update_cache_file_busy api c argv1 h L) in H1. inv H1.
    exists []. now apply update_cache_file_busy.
Qed.

Lemma C7_witness :
  let api := Demo.steady_api EmptyString in
  let h := Demo.host (Some (render ["ssh-rsa OLD"])) (Some (render ["db-0"]))
                     Unlocked (Demo.fleet ["ws-b"]) in
  let h1 := Demo.host (Some (render ["ssh-rsa OLD"; Demo.key_a]))
                      (Some (render ["ws-a"; "db-0"]))
                      Unlocked (Demo.fleet ["ws-b"]) in
  let t1 := [("ws-a", Some Demo.key_a); ("ws-b", None)] in
  exec_keeps_world api CONTAINER_CLIENT_KUBERNETES
  /\ full_run Demo.incremental = false
  /\ forallb plain_identifier
       (eligible api CONTAINER_CLIENT_KUBERNETES (world h)) = true
  /\ update_cache_file api CONTAINER_CLIENT_KUBERNETES Demo.incremental h
     = (Ok tt, h1, t1)
  /\ exists t2,
       update_cache_file api CONTAINER_CLIENT_KUBERNETES Demo.incremental h1
       = (Ok tt, h1, t2).
Proof.
  assert (Hs : exec_keeps_world (Demo.steady_api EmptyString)
                 CONTAINER_CLIENT_KUBERNETES)
    by (intros pod_name w; reflexivity).
  split; [exact Hs|]. split; [reflexivity|]. split; [reflexivity|].
  split; [reflexivity|].
  exact (C7_second_incremental_run_leaves_the_host_as_it_is
           (Demo.steady_api EmptyString) CONTAINER_CLIENT_KUBERNETES
           Demo.incremental Demo.incremental
           (Demo.host (Some (render ["ssh-rsa OLD"])) (Some (render ["db-0"]))
                      Unlocked (Demo.fleet ["ws-b"]))
           (Demo.host (Some (render ["ssh-rsa OLD"; Demo.key_a]))
                      (Some (render ["ws-a"; "db-0"]))
                      Unlocked (Demo.fleet ["ws-b"]))
           (Ok tt) [("ws-a", Some Demo.key_a); ("ws-b", None)]
           Hs eq_refl eq_refl eq_refl eq_refl).
Defined.

(** ** C8: the lock is held by another invocation *)

(** C8.  When the lock is held by another process, the script (with either
    client, in either mode) ends with status 0, has made no exec, and leaves
    the host as it was: neither cache file is created, removed or
    written. *)
Theorem C8_lock_contention_is_a_clean_no_op
    {W : Type} (api : Backend W) (c : container_client_kind)
    (argv : list string) (h : Host W) :
  cache_files_lock h = LockedElsewhere ->
  script api (Some c) argv h = (0, h, []).
Proof.
  intros L. unfold script.
  assert (L' : cache_files_lock h <> Unlocked) by (rewrite L; discriminate).
  now rewrite (update_cache_file_busy api c argv h L').
Qed.

Lemma C8_witness :
  let h := Demo.host (Some (render [Demo.key_a])) None LockedElsewhere
                     (Demo.fleet ["7c3e"]) in
  cache_files_lock h = LockedElsewhere
  /\ script (Demo.api "ws-") (Some CONTAINER_CLIENT_DOCKER) Demo.full h = (0, h, []).
Proof.
  split; [reflexivity|].
  apply (C8_lock_contention_is_a_clean_no_op (Demo.api "ws-")
           CONTAINER_CLIENT_DOCKER Demo.full); reflexivity.
Defined.

(** ** C9: the skip list *)

(** C9.  In any sequence of incremental invocations, whatever happens to
    the host between them: an invocation that starts with identifier [i] in
    the persisted query cache makes no exec for [i]. *)
Theorem C9_cached_identifier_is_never_fetched_again
    {W : Type} (api : Backend W) (c : container_client_kind)
    (runs : list (list string * (Host W -> Host W))) (h : Host W) (i : string) :
  Forall (fun run => full_run (fst run) = false) runs ->
  Forall (fun started =>
            In i (cached_identifiers (fst started)) ->
            ~ In i (exec_targets (snd started)))
         (invocations api c runs h).
Proof.
  intros Hinc. revert h.
  induction Hinc as [|[argv env] rest F _ IH]; intros h; simpl.
  - constructor.
  - destruct (update_cache_file api c argv (env h)) as [[r h'] t] eqn:E.
    constructor; [|apply IH].
    simpl in *. intros Hi.
    apply (run_skips_cached api c argv (env h) h' r t i E).
    unfold prior_query_cache. now rewrite F.
Qed.

Lemma C9_witness :
  let api := Demo.api "ws-" in
  let h := Demo.host None (Some (render ["ws-a"])) Unlocked (Demo.fleet ["ws-b"]) in
  let runs := [(Demo.incremental, fun x : Host Demo.World => x);
               (Demo.incremental, fun x : Host Demo.World => x)] in
  Forall (fun run => full_run (fst run) = false) runs
  /\ Forall (fun started =>
               In "ws-a" (cached_identifiers (fst started)) ->
               ~ In "ws-a" (exec_targets (snd started)))
            (invocations api CONTAINER_CLIENT_KUBERNETES runs h).
Proof.
  split; [repeat constructor|].
  apply (C9_cached_identifier_is_never_fetched_again (Demo.api "ws-")
           CONTAINER_CLIENT_KUBERNETES).
  repeat constructor.
Defined.

(** ** The lock after an invocation *)

(** Whatever way an invocation that took the lock ends (normal return, a
    failed exec with the Docker client, a missing file in a full run), the
    lock is free afterwards. *)
Lemma lock_released_on_every_exit
    {W : Type} (api : Backend W) (c : container_client_kind)
    (argv : list string) (h h' : Host W) r t :
  cache_files_lock h = Unlocked ->
  update_cache_file api c argv h = (r, h', t) ->
  cache_files_lock h' = Unlocked.
Proof.
  intros L H.
  destruct (full_run argv) eqn:F.
  - destruct (etc_ssh_query_cache h) as [text|] eqn:Q.
    + destruct (get_authorized_keys api c [] (world h)) as [[r0 w'] t0] eqn:E.
      rewrite (update_cache_file_run api c argv h r0 w' t0 L) in H;
        [| rewrite Q; discriminate | now rewrite F].
      destruct r0 as [[ks nq]|e]; now inv H.
    + rewrite (update_cache_file_full_missing api c argv h L F Q) in H.
      now inv H.
  - destruct (get_authorized_keys api c (cached_identifiers h) (world h))
      as [[r0 w'] t0] eqn:E.
    rewrite (update_cache_file_run api c argv h r0 w' t0 L) in H;
      [| rewrite F; discriminate | now rewrite F].
    destruct r0 as [[ks nq]|e]; now inv H.
Qed.


(** * Further properties of the script *)

(** ** Which execs a pass over the listing makes *)

Section UnitLoopTargets.
Context {W U : Type}.
Variable prefix : string.
Variable uname ident : U -> string.
Variable exec : U -> W -> option string * W.
Variable tolerant : bool.
Variable query_cache : list string.

Local Abbreviation body := (unit_body prefix uname ident exec tolerant query_cache).
Local Abbreviation listed := (matching prefix uname ident).
Local Abbreviation fresh := (fun i : string => negb (mem i query_cache)).

(** A pass that returns has exec'd into exactly the matching units that the
    query cache does not list, in listing order; a pass that raises stopped
    at its first failed exec. *)
Lemma unit_loop_targets (units : list U) :
  forall ks nq w r w' t,
    for_each units body (ks, nq) w = (r, w', t) ->
    match r with
    | Ok _ => exec_targets t = filter fresh (listed units)
    | Raise _ =>
        tolerant = false /\
        exists t0 i rest,
          t = t0 ++ [(i, None)] /\ failed t0 = [] /\
          filter fresh (listed units) = exec_targets t0 ++ i :: rest
    end.
Proof.
  induction units as [|u us IH]; intros ks nq w r w' t H.
  - simpl in H. inv H. reflexivity.
  - rewrite for_each_cons in H.
    destruct (body u (ks, nq) w) as [[r1 w1] t1] eqn:Eb.
    unfold unit_body in Eb. rewrite matching_cons.
    destruct (unit_matches prefix uname u) eqn:Em; simpl in Eb.
    + destruct (mem (ident u) query_cache) eqn:Ec.
      * inv Eb.
        destruct (for_each us body (ks, nq ++ [ident u]) w1)
          as [[r2 w2] t2] eqn:E2.
        inv H. apply IH in E2. simpl. rewrite Ec. simpl. exact E2.
      * destruct (exec u w) as [[out|] w0] eqn:Ex.
        -- inv Eb.
           destruct (for_each us body (ks ++ [out], nq ++ [ident u]) w1)
             as [[r2 w2] t2] eqn:E2.
           inv H. apply IH in E2. simpl. rewrite Ec. simpl.
           destruct r as [a|e].
           ++ simpl. now rewrite E2.
           ++ destruct E2 as (Htol & t0 & i & rest & -> & Hf & Hl).
              split; [exact Htol|].
              exists ((ident u, Some out) :: t0), i, rest.
              simpl. split; [reflexivity|]. split; [exact Hf|].
              now rewrite Hl.
        -- destruct (bool_dec tolerant true) as [Etol|Etol].
           ++ rewrite Etol in Eb.
              assert (Hnf : tolerant <> false) by (rewrite Etol; discriminate).
              clear Etol. inv Eb.
              destruct (for_each us body (ks, nq) w1) as [[r2 w2] t2] eqn:E2.
              inv H. apply IH in E2. simpl. rewrite Ec. simpl.
              destruct r as [a|e].
              ** simpl. now rewrite E2.
              ** destruct E2 as (Htol & _). contradiction.
           ++ assert (Ef := not_true_is_false _ Etol). rewrite Ef in Eb.
              clear Ef. inv Eb. inv H. simpl. rewrite Ec. simpl.
              split; [now apply not_true_is_false|].
              exists [], (ident u), (filter fresh (listed us)).
              repeat split.
    + inv Eb.
      destruct (for_each us body (ks, nq) w1) as [[r2 w2] t2] eqn:E2.
      inv H. now apply IH in E2.
Qed.

End UnitLoopTargets.

Section FetchTargets.
Context {W : Type} (api : Backend W).

Lemma fetch_targets c query_cache w r w' t :
  get_authorized_keys api c query_cache w = (r, w', t) ->
  match r with
  | Ok _ =>
      exec_targets t
      = filter (fun i => negb (mem i query_cache)) (eligible api c w)
  | Raise _ =>
      exists t0 i rest,
        t = t0 ++ [(i, None)] /\ failed t0 = [] /\
        filter (fun i => negb (mem i query_cache)) (eligible api c w)
        = exec_targets t0 ++ i :: rest
  end.
Proof.
  intros H. destruct c; simpl in H.
  - unfold get_authorized_keys_kubernetes, bind, gets in H.
    rewrite (for_each_ext _ _ _ (kubernetes_body_unit api query_cache)) in H.
    destruct (for_each _ _ _ w) as [[r2 w2] t2] eqn:E. simpl in H. inv H.
    apply unit_loop_targets in E. destruct r as [a|e]; [exact E|].
    destruct E as (_ & E). exact E.
  - unfold get_authorized_keys_docker, bind, gets in H.
    rewrite (for_each_ext _ _ _ (docker_body_unit api query_cache)) in H.
    destruct (for_each _ _ _ w) as [[r2 w2] t2] eqn:E. simpl in H. inv H.
    apply unit_loop_targets in E. destruct r as [a|e]; [exact E|].
    destruct E as (_ & E). exact E.
Qed.

End FetchTargets.

(** ** The ways an invocation can go *)

Section RunCases.
Context {W : Type} (api : Backend W).

(** The lock is taken, or the run stops at [os.remove], or it goes as the
    fetch goes. *)
Lemma run_cases c argv (h h' : Host W) r t :
  update_cache_file api c argv h = (r, h', t) ->
  (cache_files_lock h <> Unlocked /\ r = Ok tt /\ h' = h /\ t = [])
  \/ (cache_files_lock h = Unlocked /\ full_run argv = true
      /\ etc_ssh_query_cache h = None
      /\ r = Raise FileNotFoundError /\ h' = set_lock Unlocked h /\ t = [])
  \/ (cache_files_lock h = Unlocked
      /\ (full_run argv = true -> etc_ssh_query_cache h <> None)
      /\ exists r0 w',
           get_authorized_keys api c (prior_query_cache argv h) (world h)
             = (r0, w', t)
           /\ (r, h') =
              match r0 with
              | Ok (ks, nq) =>
                  (Ok tt,
                   Build_Host
                     (Some ((if full_run argv then EmptyString
                             else content authorized_keys_cache_file h)
                            ++ render (filter well_formed_key ks))%string)
                     (Some (render nq)) Unlocked w')
              | Raise _ =>
                  (Raise BackendError,
                   Build_Host (etc_ssh_authorized_keys_cache h)
                              (if full_run argv then None
                               else etc_ssh_query_cache h)
                              Unlocked w')
              end).
Proof.
  intros H.
  destruct (lock_state_eq_dec (cache_files_lock h) Unlocked) as [L|L];
    [|left; rewrite (update_cache_file_busy api c argv h L) in H; now inv H].
  - right.
    assert (Hcase : (full_run argv = true /\ etc_ssh_query_cache h = None)
                    \/ (full_run argv = true -> etc_ssh_query_cache h <> None)).
    { destruct (full_run argv); [|right; discriminate].
      destruct (etc_ssh_query_cache h); [right; discriminate|left; now split]. }
    destruct Hcase as [[F Q]|Hq].
    + left. rewrite (update_cache_file_full_missing api c argv h L F Q) in H.
      now inv H.
    + right. split; [exact L|]. split; [exact Hq|].
      destruct (get_authorized_keys api c (prior_query_cache argv h) (world h))
        as [[r0 w'] t0] eqn:E.
      unfold prior_query_cache in E.
      rewrite (update_cache_file_run api c argv h r0 w' t0 L Hq E) in H.
      exists r0, w'. destruct r0 as [[ks nq]|e]; now inv H.
Qed.

Lemma failed_targets t i : In i (failed t) -> In i (exec_targets t).
Proof.
  induction t as [|[j [out|]] t IH]; simpl; intros H.
  - exact H.
  - right. now apply IH.
  - destruct H as [H|H]; [now left | right; now apply IH].
Qed.

Lemma failed_fetched_disjoint t i :
  NoDup (exec_targets t) -> In i (failed t) -> ~ In i (map fst (fetched t)).
Proof.
  induction t as [|[j [out|]] t IH]; simpl; intros Hnd Hf.
  - destruct Hf.
  - inv Hnd. intros [Hj|Hin].
    + subst j. apply H1. now apply failed_targets.
    + now apply (IH H2 Hf).
  - inv Hnd. destruct Hf as [Hj|Hf].
    + subst j. intros Hin. apply H1. now apply fetched_targets.
    + now apply IH.
Qed.

Lemma filter_all {A} (l : list A) : filter (fun _ => true) l = l.
Proof. induction l as [|a l IH]; simpl; [reflexivity|now rewrite IH]. Qed.

Lemma filter_fresh_nil (l : list string) :
  filter (fun i => negb (mem i [])) l = l.
Proof. induction l as [|a l IH]; simpl; [reflexivity|f_equal; exact IH]. Qed.

(** After an invocation that took the lock and returned, the next load of
    the query cache gives the entries that were written. *)
Lemma run_completed_cache c argv (h h' : Host W) t ks nq :
  get_authorized_keys api c (prior_query_cache argv h) (world h)
    = (Ok (ks, nq), world h', t) ->
  etc_ssh_query_cache h' = Some (render nq) ->
  forallb plain_identifier (eligible api c (world h)) = true ->
  cached_identifiers h' = nq.
Proof.
  intros E Hq Hplain. unfold cached_identifiers. rewrite Hq.
  apply parse_render.
  apply (forallb_incl _ _ _ (fetch_cache_eligible api _ _ _ _ _ _ _ E) Hplain).
Qed.

End RunCases.

(** ** X1: the prefix filter *)

(** X1.  Whatever a call of [get_authorized_keys_kubernetes] or
    [get_authorized_keys_docker] does, it execs only into running units whose
    name starts with SSH_PERMIT_SERVICE_PREFIX, and when it returns, every
    entry of the query cache it returns is such a unit, even an entry taken
    over from the given query cache. *)
Theorem X1_only_units_with_the_prefix_are_touched
    {W : Type} (api : Backend W) (c : container_client_kind)
    (query_cache : list string) (w w' : W)
    (r : result (list string * list string)) (t : list exec_event) :
  get_authorized_keys api c query_cache w = (r, w', t) ->
  (forall i, In i (exec_targets t) -> In i (eligible api c w))
  /\ (forall ks nq, r = Ok (ks, nq) -> forall i, In i nq -> In i (eligible api c w)).
Proof.
  intros H. split.
  - intros i Hi.
    destruct (fetch_summary api _ _ _ _ _ _ H) as (Ht & _). now apply Ht.
  - intros ks nq -> i Hi. exact (fetch_cache_eligible api _ _ _ _ _ _ _ H i Hi).
Qed.

Lemma X1_witness :
  let api := Demo.api "ws-" in
  let t := [("ws-a", Some Demo.key_a); ("ws-b", Some Demo.key_b)] in
  get_authorized_keys api CONTAINER_CLIENT_KUBERNETES ["db-0"] (Demo.fleet [])
    = (Ok ([Demo.key_a; Demo.key_b], ["ws-a"; "ws-b"]), Demo.fleet [], t)
  /\ ((forall i, In i (exec_targets t) ->
                 In i (eligible api CONTAINER_CLIENT_KUBERNETES (Demo.fleet [])))
      /\ (forall ks nq,
            Ok ([Demo.key_a; Demo.key_b], ["ws-a"; "ws-b"]) = Ok (ks, nq) ->
            forall i, In i nq ->
                      In i (eligible api CONTAINER_CLIENT_KUBERNETES (Demo.fleet [])))).
Proof.
  split; [reflexivity|].
  exact (X1_only_units_with_the_prefix_are_touched (Demo.api "ws-")
           CONTAINER_CLIENT_KUBERNETES ["db-0"] (Demo.fleet []) (Demo.fleet [])
           (Ok ([Demo.key_a; Demo.key_b], ["ws-a"; "ws-b"]))
           [("ws-a", Some Demo.key_a); ("ws-b", Some Demo.key_b)] eq_refl).
Defined.

(** ** X2: the empty prefix *)

Lemma eligible_empty_prefix {W : Type} (api : Backend W) c (w : W) :
  SSH_PERMIT_SERVICE_PREFIX api = EmptyString ->
  eligible api c w = listed_identifiers api c w.
Proof.
  intros P. unfold eligible, listed_identifiers. rewrite P.
  destruct c; f_equal; rewrite <- filter_all; apply filter_ext;
    intros u; unfold Text.startswith; now destruct (_ u).
Qed.

(** X2.  With the empty prefix (the default when the environment variable
    is not set) and an empty query cache, a call that returns has exec'd
    into every listed unit, whatever its name, once each and in listing
    order. *)
Theorem X2_empty_prefix_selects_every_unit
    {W : Type} (api : Backend W) (c : container_client_kind) (w w' : W)
    (ks nq : list string) (t : list exec_event) :
  SSH_PERMIT_SERVICE_PREFIX api = EmptyString ->
  get_authorized_keys api c [] w = (Ok (ks, nq), w', t) ->
  exec_targets t = listed_identifiers api c w.
Proof.
  intros P H. pose proof (fetch_targets api _ _ _ _ _ _ H) as Ht. simpl in Ht.
  rewrite Ht, filter_fresh_nil. now apply eligible_empty_prefix.
Qed.

Lemma X2_witness :
  let api := Demo.api EmptyString in
  let t := [("ws-a", Some Demo.key_a); ("db-0", Some Demo.no_key);
            ("ws-b", Some Demo.key_b)] in
  SSH_PERMIT_SERVICE_PREFIX api = EmptyString
  /\ get_authorized_keys api CONTAINER_CLIENT_KUBERNETES [] (Demo.fleet [])
     = (Ok ([Demo.key_a; Demo.no_key; Demo.key_b], ["ws-a"; "db-0"; "ws-b"]),
        Demo.fleet [], t)
  /\ exec_targets t
     = listed_identifiers api CONTAINER_CLIENT_KUBERNETES (Demo.fleet []).
Proof.
  split; [reflexivity|]. split; [reflexivity|].
  apply (X2_empty_prefix_selects_every_unit (Demo.api EmptyString)
           CONTAINER_CLIENT_KUBERNETES (Demo.fleet []) (Demo.fleet [])
           [Demo.key_a; Demo.no_key; Demo.key_b] ["ws-a"; "db-0"; "ws-b"]);
    reflexivity.
Defined.

(** ** X3: what a call that returns has fetched *)

(** X3.  When [get_authorized_keys_kubernetes] or [get_authorized_keys_docker]
    returns, it has made exactly one exec for each eligible unit that the
    given query cache does not list, in listing order, and the keys it
    returns are the texts of the successful ones, in the same order. *)
Theorem X3_every_new_unit_is_asked_once
    {W : Type} (api : Backend W) (c : container_client_kind)
    (query_cache : list string) (w w' : W)
    (authorized_keys new_query_cache : list string) (t : list exec_event) :
  get_authorized_keys api c query_cache w
    = (Ok (authorized_keys, new_query_cache), w', t) ->
  exec_targets t
    = filter (fun i => negb (mem i query_cache)) (eligible api c w)
  /\ authorized_keys = map snd (fetched t).
Proof.
  intros H. split.
  - exact (fetch_targets api _ _ _ _ _ _ H).
  - now destruct (fetch_summary api _ _ _ _ _ _ H) as (_ & _ & Hk & _).
Qed.

Lemma X3_witness :
  let api := Demo.api "ws-" in
  let t := [("ws-a", None); ("ws-b", Some Demo.key_b)] in
  get_authorized_keys api CONTAINER_CLIENT_KUBERNETES ["gone"] (Demo.fleet ["ws-a"])
    = (Ok ([Demo.key_b], ["ws-b"]), Demo.fleet [], t)
  /\ (exec_targets t
        = filter (fun i => negb (mem i ["gone"]))
                 (eligible api CONTAINER_CLIENT_KUBERNETES (Demo.fleet ["ws-a"]))
      /\ [Demo.key_b] = map snd (fetched t)).
Proof.
  split; [reflexivity|].
  exact (X3_every_new_unit_is_asked_once (Demo.api "ws-")
           CONTAINER_CLIENT_KUBERNETES ["gone"] (Demo.fleet ["ws-a"])
           (Demo.fleet []) [Demo.key_b] ["ws-b"]
           [("ws-a", None); ("ws-b", Some Demo.key_b)] eq_refl).
Defined.

(** ** X4: a full run asks every eligible unit again *)

(** X4.  An invocation with the argument "full" that takes the lock and
    returns normally has exec'd into every eligible unit, also into those the
    query cache file listed before. *)
Theorem X4_full_run_asks_every_eligible_unit
    {W : Type} (api : Backend W) (c : container_client_kind)
    (argv : list string) (h h' : Host W) (t : list exec_event) :
  cache_files_lock h = Unlocked ->
  full_run argv = true ->
  update_cache_file api c argv h = (Ok tt, h', t) ->
  exec_targets t = eligible api c (world h).
Proof.
  intros L F H.
  destruct (run_completed api c argv h h' t L H) as (ks & nq & E & _).
  unfold prior_query_cache in E. rewrite F in E.
  pose proof (fetch_targets api _ _ _ _ _ _ E) as Ht. simpl in Ht.
  now rewrite Ht, filter_fresh_nil.
Qed.

Lemma X4_witness :
  let api := Demo.api "ws-" in
  let h := Demo.host None (Some (render ["0a1f"; "7c3e"])) Unlocked (Demo.fleet []) in
  let h' := Demo.host (Some (render [Demo.key_a; Demo.key_b]))
                      (Some (render ["0a1f"; "7c3e"])) Unlocked (Demo.fleet []) in
  let t := [("0a1f", Some Demo.key_a); ("7c3e", Some Demo.key_b)] in
  cache_files_lock h = Unlocked
  /\ full_run Demo.full = true
  /\ update_cache_file api CONTAINER_CLIENT_DOCKER Demo.full h = (Ok tt, h', t)
  /\ exec_targets t = eligible api CONTAINER_CLIENT_DOCKER (world h).
Proof.
  split; [reflexivity|]. split; [reflexivity|]. split; [reflexivity|].
  apply (X4_full_run_asks_every_eligible_unit (Demo.api "ws-")
           CONTAINER_CLIENT_DOCKER Demo.full
           (Demo.host None (Some (render ["0a1f"; "7c3e"])) Unlocked (Demo.fleet []))
           (Demo.host (Some (render [Demo.key_a; Demo.key_b]))
                      (Some (render ["0a1f"; "7c3e"])) Unlocked (Demo.fleet [])));
    [reflexivity | reflexivity | reflexivity].
Defined.

(** ** X5: the authorized-keys file in an incremental run *)

(** X5.  However an incremental invocation ends (busy, normal return, or an
    exception), the authorized-keys file afterwards is its old content
    followed by whole lines, each of them a text fetched in this invocation
    that starts with "ssh": nothing that was in the file is removed or
    changed. *)
Theorem X5_incremental_run_only_appends
    {W : Type} (api : Backend W) (c : container_client_kind)
    (argv : list string) (h h' : Host W) (r : result unit)
    (t : list exec_event) :
  full_run argv = false ->
  update_cache_file api c argv h = (r, h', t) ->
  exists kept,
    content authorized_keys_cache_file h'
      = (content authorized_keys_cache_file h ++ render kept)%string
    /\ forall k, In k kept ->
                 well_formed_key k = true /\ In k (map snd (fetched t)).
Proof.
  intros F H.
  destruct (run_cases api c argv h h' r t H)
    as [(_ & _ & -> & _) | [(_ & F' & _) | (_ & _ & r0 & w' & E & Hr)]].
  - exists []. simpl. rewrite append_nil_r. split; [reflexivity|intros k []].
  - congruence.
  - rewrite F in Hr. destruct r0 as [[ks nq]|e]; inv Hr.
    + exists (filter well_formed_key ks). split; [reflexivity|].
      intros k Hk. apply filter_In in Hk as [Hin Hok]. split; [exact Hok|].
      now destruct (fetch_summary api _ _ _ _ _ _ E) as (_ & _ & <- & _).
    + exists []. simpl. rewrite append_nil_r. split; [reflexivity|intros k []].
Qed.

Lemma X5_witness :
  let api := Demo.api EmptyString in
  let h := Demo.host (Some (render ["ssh-rsa OLD"])) (Some (render ["ws-a"]))
                     Unlocked (Demo.fleet []) in
  let h' := Demo.host (Some (render ["ssh-rsa OLD"; Demo.key_b]))
                      (Some (render ["ws-a"; "db-0"; "ws-b"]))
                      Unlocked (Demo.fleet []) in
  let t := [("db-0", Some Demo.no_key); ("ws-b", Some Demo.key_b)] in
  full_run Demo.incremental = false
  /\ update_cache_file api CONTAINER_CLIENT_KUBERNETES Demo.incremental h
     = (Ok tt, h', t)
  /\ exists kept,
       content authorized_keys_cache_file h'
         = (content authorized_keys_cache_file h ++ render kept)%string
       /\ forall k, In k kept ->
                    well_formed_key k = true /\ In k (map snd (fetched t)).
Proof.
  split; [reflexivity|]. split; [reflexivity|].
  apply (X5_incremental_run_only_appends (Demo.api EmptyString)
           CONTAINER_CLIENT_KUBERNETES Demo.incremental
           (Demo.host (Some (render ["ssh-rsa OLD"])) (Some (render ["ws-a"]))
                      Unlocked (Demo.fleet []))
           (Demo.host (Some (render ["ssh-rsa OLD"; Demo.key_b]))
                      (Some (render ["ws-a"; "db-0"; "ws-b"]))
                      Unlocked (Demo.fleet []))
           (Ok tt) [("db-0", Some Demo.no_key); ("ws-b", Some Demo.key_b)]);
    reflexivity.
Defined.

(** ** X6, X7: the query cache from one run to the next *)

Lemma new_cache_membership {W : Type} (api : Backend W) c query_cache
    (w w' : W) ks nq t :
  get_authorized_keys api c query_cache w = (Ok (ks, nq), w', t) ->
  forall i, In i nq <->
            (In i query_cache /\ In i (eligible api c w))
            \/ In i (map fst (fetched t)).
Proof.
  intros H i.
  destruct (fetch_summary api _ _ _ _ _ _ H) as (_ & _ & _ & Hf & Hc & _).
  split.
  - intros Hi. destruct (mem i query_cache) eqn:Em.
    + left. split; [now apply mem_In|].
      assert (Hin : In i (filter (fun j => mem j query_cache) nq))
        by (apply filter_In; now split).
      rewrite Hc in Hin. now apply filter_In in Hin.
    + right. rewrite <- Hf. apply filter_In. split; [exact Hi|now rewrite Em].
  - intros [[Hq He]|Hi].
    + assert (Hin : In i (filter (fun j => mem j query_cache) (eligible api c w)))
        by (apply filter_In; split; [exact He|now apply mem_In]).
      rewrite <- Hc in Hin. now apply filter_In in Hin.
    + rewrite <- Hf in Hi. now apply filter_In in Hi.
Qed.

(** X6.  Through the file: after an invocation that took the lock and
    returned normally, with identifiers free of whitespace, the query cache
    that the next invocation loads (lines read back and stripped) holds
    exactly the identifiers this run worked with that are still eligible,
    and the identifiers it fetched with success.  An identifier whose unit is
    no longer listed is gone, one whose exec failed is not added. *)
Theorem X6_next_run_loads_what_this_run_kept
    {W : Type} (api : Backend W) (c : container_client_kind)
    (argv : list string) (h h' : Host W) (t : list exec_event) :
  cache_files_lock h = Unlocked ->
  update_cache_file api c argv h = (Ok tt, h', t) ->
  forallb plain_identifier (eligible api c (world h)) = true ->
  forall i, In i (cached_identifiers h') <->
            (In i (prior_query_cache argv h) /\ In i (eligible api c (world h)))
            \/ In i (map fst (fetched t)).
Proof.
  intros L H Hplain i.
  destruct (run_completed api c argv h h' t L H) as (ks & nq & E & Hh).
  assert (Hq : etc_ssh_query_cache h' = Some (render nq)) by now rewrite Hh.
  rewrite (run_completed_cache api c argv h h' t ks nq E Hq Hplain).
  exact (new_cache_membership api _ _ _ _ _ _ _ E i).
Qed.

Lemma X6_witness :
  let api := Demo.api "ws-" in
  let h := Demo.host None (Some (render ["ws-a"; "gone"])) Unlocked
                     (Demo.fleet []) in
  let h' := Demo.host (Some (render [Demo.key_b])) (Some (render ["ws-a"; "ws-b"]))
                      Unlocked (Demo.fleet []) in
  let t := [("ws-b", Some Demo.key_b)] in
  cache_files_lock h = Unlocked
  /\ update_cache_file api CONTAINER_CLIENT_KUBERNETES Demo.incremental h
     = (Ok tt, h', t)
  /\ forallb plain_identifier
       (eligible api CONTAINER_CLIENT_KUBERNETES (world h)) = true
  /\ forall i, In i (cached_identifiers h') <->
               (In i (prior_query_cache Demo.incremental h)
                /\ In i (eligible api CONTAINER_CLIENT_KUBERNETES (world h)))
               \/ In i (map fst (fetched t)).
Proof.
  split; [reflexivity|]. split; [reflexivity|]. split; [reflexivity|].
  apply (X6_next_run_loads_what_this_run_kept (Demo.api "ws-")
           CONTAINER_CLIENT_KUBERNETES Demo.incremental
           (Demo.host None (Some (render ["ws-a"; "gone"])) Unlocked (Demo.fleet []))
           (Demo.host (Some (render [Demo.key_b])) (Some (render ["ws-a"; "ws-b"]))
                      Unlocked (Demo.fleet [])));
    [reflexivity | reflexivity | reflexivity].
Defined.

(** X7.  However an incremental invocation ends, an identifier that the
    persisted query cache lists and whose unit is still eligible is not
    exec'd and is still in the persisted query cache afterwards
    (identifiers free of whitespace). *)
Theorem X7_listed_unit_stays_in_the_query_cache
    {W : Type} (api : Backend W) (c : container_client_kind)
    (argv : list string) (h h' : Host W) (r : result unit)
    (t : list exec_event) (i : string) :
  full_run argv = false ->
  In i (cached_identifiers h) ->
  In i (eligible api c (world h)) ->
  forallb plain_identifier (eligible api c (world h)) = true ->
  update_cache_file api c argv h = (r, h', t) ->
  In i (cached_identifiers h') /\ ~ In i (exec_targets t).
Proof.
  intros F Hc He Hplain H.
  assert (Hp : In i (prior_query_cache argv h))
    by (unfold prior_query_cache; now rewrite F).
  split; [|exact (run_skips_cached api c argv h h' r t i H Hp)].
  destruct (run_cases api c argv h h' r t H)
    as [(_ & _ & -> & _) | [(_ & F' & _) | (_ & _ & r0 & w' & E & Hr)]].
  - exact Hc.
  - congruence.
  - rewrite F in Hr. destruct r0 as [[ks nq]|e]; inv Hr.
    + rewrite (run_completed_cache api c argv h
                 (Build_Host _ (Some (render nq)) Unlocked w') t ks nq E eq_refl Hplain).
      apply (new_cache_membership api _ _ _ _ _ _ _ E i). left. now split.
    + exact Hc.
Qed.

Lemma X7_witness :
  let api := Demo.api "ws-" in
  let h := Demo.host None (Some (render ["0a1f"])) Unlocked (Demo.fleet ["7c3e"]) in
  let h' := Demo.host None (Some (render ["0a1f"])) Unlocked (Demo.fleet []) in
  let t := [("7c3e", None)] in
  full_run Demo.incremental = false
  /\ In "0a1f" (cached_identifiers h)
  /\ In "0a1f" (eligible api CONTAINER_CLIENT_DOCKER (world h))
  /\ forallb plain_identifier (eligible api CONTAINER_CLIENT_DOCKER (world h)) = true
  /\ update_cache_file api CONTAINER_CLIENT_DOCKER Demo.incremental h
     = (Raise BackendError, h', t)
  /\ (In "0a1f" (cached_identifiers h') /\ ~ In "0a1f" (exec_targets t)).
Proof.
  split; [reflexivity|]. split; [now left|]. split; [now left|].
  split; [reflexivity|]. split; [reflexivity|].
  apply (X7_listed_unit_stays_in_the_query_cache (Demo.api "ws-")
           CONTAINER_CLIENT_DOCKER Demo.incremental
           (Demo.host None (Some (render ["0a1f"])) Unlocked (Demo.fleet ["7c3e"]))
           (Demo.host None (Some (render ["0a1f"])) Unlocked (Demo.fleet []))
           (Raise BackendError) [("7c3e", None)] "0a1f");
    [reflexivity | now left | now left | reflexivity | reflexivity].
Defined.

(** ** X8: a failed exec with the Docker client *)

(** X8.  With the Docker client, an invocation in which an exec failed
    ended with that exception: the failed exec is its last exec and its only
    failed one, the authorized-keys file is as it was, and the query cache
    file is as it was in an incremental run and removed in a full run. *)
Theorem X8_docker_failed_exec_ends_the_invocation
    {W : Type} (api : Backend W) (argv : list string) (h h' : Host W)
    (r : result unit) (t : list exec_event) :
  update_cache_file api CONTAINER_CLIENT_DOCKER argv h = (r, h', t) ->
  failed t <> [] ->
  r = Raise BackendError
  /\ etc_ssh_authorized_keys_cache h' = etc_ssh_authorized_keys_cache h
  /\ etc_ssh_query_cache h'
     = (if full_run argv then None else etc_ssh_query_cache h)
  /\ exists t0 i, t = t0 ++ [(i, None)] /\ failed t0 = [].
Proof.
  intros H Hfail.
  destruct (run_cases api _ argv h h' r t H)
    as [(_ & _ & _ & ->) | [(_ & _ & _ & _ & _ & ->) | (_ & _ & r0 & w' & E & Hr)]].
  - now destruct Hfail.
  - now destruct Hfail.
  - pose proof (fetch_targets api _ _ _ _ _ _ E) as Ht.
    destruct (fetch_summary api _ _ _ _ _ _ E) as (_ & _ & Hs).
    destruct r0 as [[ks nq]|e].
    + destruct Hs as (_ & _ & _ & _ & Hd). now destruct Hfail; apply Hd.
    + inv Hr. destruct Ht as (t0 & i & rest & -> & Hf0 & _).
      repeat split. now exists t0, i.
Qed.

Lemma X8_witness :
  let api := Demo.api "ws-" in
  let h := Demo.host (Some (render ["ssh-rsa OLD"])) (Some (render ["dead"]))
                     Unlocked (Demo.fleet ["7c3e"]) in
  let h' := Demo.host (Some (render ["ssh-rsa OLD"])) None Unlocked (Demo.fleet []) in
  let t := [("0a1f", Some Demo.key_a); ("7c3e", None)] in
  update_cache_file api CONTAINER_CLIENT_DOCKER Demo.full h
    = (Raise BackendError, h', t)
  /\ failed t <> []
  /\ (Raise BackendError = Raise BackendError :> result unit)
  /\ etc_ssh_authorized_keys_cache h' = etc_ssh_authorized_keys_cache h
  /\ etc_ssh_query_cache h'
     = (if full_run Demo.full then None else etc_ssh_query_cache h)
  /\ exists t0 i, t = t0 ++ [(i, None)] /\ failed t0 = [].
Proof.
  split; [reflexivity|]. split; [discriminate|].
  apply (X8_docker_failed_exec_ends_the_invocation (Demo.api "ws-") Demo.full
           (Demo.host (Some (render ["ssh-rsa OLD"])) (Some (render ["dead"]))
                      Unlocked (Demo.fleet ["7c3e"]))
           (Demo.host (Some (render ["ssh-rsa OLD"])) None Unlocked (Demo.fleet []))
           (Raise BackendError) [("0a1f", Some Demo.key_a); ("7c3e", None)]);
    [reflexivity | discriminate].
Defined.

(** ** X9: a full run without a query cache file *)

(** X9.  With either client, on any host where the lock is free and there
    is no query cache file, an invocation with the argument "full" ends with
    status 1 without a single exec and leaves the host as it was: the
    authorized-keys file is not truncated, no file is created and the lock
    is free again. *)
Theorem X9_full_run_needs_the_query_cache_file
    {W : Type} (api : Backend W) (c : container_client_kind)
    (argv : list string) (h : Host W) :
  cache_files_lock h = Unlocked ->
  full_run argv = true ->
  etc_ssh_query_cache h = None ->
  script api (Some c) argv h = (1, h, []).
Proof.
  intros L F Q. unfold script.
  rewrite (update_cache_file_full_missing api c argv h L F Q).
  destruct h as [ak qf l w]. simpl in L. now subst l.
Qed.

Lemma X9_witness :
  let h := Demo.host (Some (render [Demo.key_a])) None Unlocked (Demo.fleet []) in
  cache_files_lock h = Unlocked
  /\ full_run Demo.full = true
  /\ etc_ssh_query_cache h = None
  /\ script (Demo.api "ws-") (Some CONTAINER_CLIENT_DOCKER) Demo.full h
     = (1, h, []).
Proof.
  split; [reflexivity|]. split; [reflexivity|]. split; [reflexivity|].
  apply (X9_full_run_needs_the_query_cache_file (Demo.api "ws-")
           CONTAINER_CLIENT_DOCKER Demo.full);
    [reflexivity | reflexivity | reflexivity].
Defined.

(** ** X11: what status 0 tells *)

(** X11.  When the script ends with status 0, either the lock was taken
    and nothing happened (no exec, host as it was), or the lock was free and
    the run went through: it was not a full run on a host without query
    cache file, with the Docker client none of its execs failed, both cache
    files exist afterwards and the lock is free again. *)
Theorem X11_what_status_0_tells
    {W : Type} (api : Backend W) (c : container_client_kind)
    (argv : list string) (h h' : Host W) (t : list exec_event) :
  script api (Some c) argv h = (0, h', t) ->
  (cache_files_lock h <> Unlocked /\ h' = h /\ t = [])
  \/ (cache_files_lock h = Unlocked
      /\ (full_run argv = true -> etc_ssh_query_cache h <> None)
      /\ (c = CONTAINER_CLIENT_DOCKER -> failed t = [])
      /\ etc_ssh_authorized_keys_cache h' <> None
      /\ etc_ssh_query_cache h' <> None
      /\ cache_files_lock h' = Unlocked).
Proof.
  unfold script. intros Hs.
  destruct (update_cache_file api c argv h) as [[r h0] t0] eqn:H.
  destruct r as [[]|e]; [|discriminate]. inv Hs.
  destruct (run_cases api c argv h h' (Ok tt) t H)
    as [(L & _ & -> & ->) | [(_ & _ & _ & Hr & _) | (L & Hq & r0 & w' & E & Hr)]].
  - left. now repeat split.
  - discriminate.
  - right. destruct (fetch_summary api _ _ _ _ _ _ E) as (_ & _ & Hsum).
    destruct r0 as [[ks nq]|e]; inv Hr.
    destruct Hsum as (_ & _ & _ & _ & Hd).
    repeat split; try assumption; simpl; discriminate.
Qed.

Lemma X11_witness :
  let api := Demo.api "ws-" in
  let h := Demo.host None None Unlocked (Demo.fleet []) in
  let h' := Demo.host (Some (render [Demo.key_a; Demo.key_b]))
                      (Some (render ["0a1f"; "7c3e"])) Unlocked (Demo.fleet []) in
  let t := [("0a1f", Some Demo.key_a); ("7c3e", Some Demo.key_b)] in
  script api (Some CONTAINER_CLIENT_DOCKER) Demo.incremental h = (0, h', t)
  /\ ((cache_files_lock h <> Unlocked /\ h' = h /\ t = [])
      \/ (cache_files_lock h = Unlocked
          /\ (full_run Demo.incremental = true -> etc_ssh_query_cache h <> None)
          /\ (CONTAINER_CLIENT_DOCKER = CONTAINER_CLIENT_DOCKER -> failed t = [])
          /\ etc_ssh_authorized_keys_cache h' <> None
          /\ etc_ssh_query_cache h' <> None
          /\ cache_files_lock h' = Unlocked)).
Proof.
  split; [reflexivity|].
  exact (X11_what_status_0_tells (Demo.api "ws-") CONTAINER_CLIENT_DOCKER
           Demo.incremental
           (Demo.host None None Unlocked (Demo.fleet []))
           (Demo.host (Some (render [Demo.key_a; Demo.key_b]))
                      (Some (render ["0a1f"; "7c3e"])) Unlocked (Demo.fleet []))
           [("0a1f", Some Demo.key_a); ("7c3e", Some Demo.key_b)] eq_refl).
Defined.

(** ** X12: a pod that could not be reached is asked again *)

Lemma NoDup_filter_keep {A} (p : A -> bool) (l : list A) :
  NoDup l -> NoDup (filter p l).
Proof.
  induction 1 as [|a l Ha Hl IH]; simpl; [constructor|].
  destruct (p a); [|exact IH].
  constructor; [|exact IH]. intros Hin. apply Ha. now apply filter_In in Hin.
Qed.

Lemma failed_not_kept {W : Type} (api : Backend W) c query_cache
    (w w' : W) ks nq t i :
  get_authorized_keys api c query_cache w = (Ok (ks, nq), w', t) ->
  NoDup (eligible api c w) ->
  In i (failed t) ->
  ~ In i nq.
Proof.
  intros E Hnd Hf Hin.
  pose proof (fetch_targets api _ _ _ _ _ _ E) as Ht. simpl in Ht.
  destruct (fetch_summary api _ _ _ _ _ _ E) as (Hs & _).
  apply (new_cache_membership api _ _ _ _ _ _ _ E i) in Hin as [[Hq _]|Hfe].
  - destruct (Hs i (failed_targets t i Hf)) as [Hm _].
    apply mem_In in Hq. congruence.
  - revert Hfe. apply failed_fetched_disjoint; [|exact Hf].
    rewrite Ht. now apply NoDup_filter_keep.
Qed.

(** X12.  With the Kubernetes client, when a run that took the lock has
    failed to exec into pod [i] (pod names unique and free of whitespace),
    [i] is not in the query cache it persists, and the next invocation, full
    or incremental, execs into [i] again if the pod is still eligible. *)
Theorem X12_unreachable_pod_is_asked_again
    {W : Type} (api : Backend W) (argv1 argv2 : list string)
    (h h1 h2 : Host W) (t1 t2 : list exec_event) (r2 : result unit)
    (i : string) :
  cache_files_lock h = Unlocked ->
  update_cache_file api CONTAINER_CLIENT_KUBERNETES argv1 h = (Ok tt, h1, t1) ->
  In i (failed t1) ->
  NoDup (eligible api CONTAINER_CLIENT_KUBERNETES (world h)) ->
  forallb plain_identifier
    (eligible api CONTAINER_CLIENT_KUBERNETES (world h)) = true ->
  In i (eligible api CONTAINER_CLIENT_KUBERNETES (world h1)) ->
  update_cache_file api CONTAINER_CLIENT_KUBERNETES argv2 h1 = (r2, h2, t2) ->
  ~ In i (cached_identifiers h1) /\ In i (exec_targets t2).
Proof.
  intros L H1 Hf Hnd Hplain He H2.
  destruct (run_completed api _ argv1 h h1 t1 L H1) as (ks & nq & E & Hh).
  assert (Hq : etc_ssh_query_cache h1 = Some (render nq)) by now rewrite Hh.
  assert (Hl : cache_files_lock h1 = Unlocked) by now rewrite Hh.
  assert (Hc : cached_identifiers h1 = nq)
    by exact (run_completed_cache api _ argv1 h h1 t1 ks nq E Hq Hplain).
  assert (Hni : ~ In i (cached_identifiers h1)).
  { rewrite Hc. exact (failed_not_kept api _ _ _ _ _ _ _ i E Hnd Hf). }
  split; [exact Hni|].
  destruct (run_cases api _ argv2 h1 h2 r2 t2 H2)
    as [(L2 & _) | [(_ & _ & Q & _) | (_ & _ & r0 & w' & E2 & _)]].
  - congruence.
  - congruence.
  - pose proof (fetch_targets api _ _ _ _ _ _ E2) as Ht.
    destruct (fetch_summary api _ _ _ _ _ _ E2) as (_ & _ & Hs).
    destruct r0 as [[ks2 nq2]|e]; [|now destruct Hs as (_ & Hd & _)].
    rewrite Ht. apply filter_In. split; [exact He|].
    apply negb_true_iff. destruct (mem i (prior_query_cache argv2 h1)) eqn:Em;
      [|reflexivity].
    apply mem_In in Em. unfold prior_query_cache in Em.
    destruct (full_run argv2); [destruct Em | contradiction].
Qed.

Lemma X12_witness :
  let api := Demo.api "ws-" in
  let h := Demo.host None (Some (render ["ws-a"])) Unlocked (Demo.fleet ["ws-b"]) in
  let h1 := Demo.host (Some EmptyString) (Some (render ["ws-a"])) Unlocked
                      (Demo.fleet []) in
  let h2 := Demo.host (Some (render [Demo.key_b])) (Some (render ["ws-a"; "ws-b"]))
                      Unlocked (Demo.fleet []) in
  let t1 := [("ws-b", None)] in
  let t2 := [("ws-b", Some Demo.key_b)] in
  cache_files_lock h = Unlocked
  /\ update_cache_file api CONTAINER_CLIENT_KUBERNETES Demo.incremental h
     = (Ok tt, h1, t1)
  /\ In "ws-b" (failed t1)
  /\ NoDup (eligible api CONTAINER_CLIENT_KUBERNETES (world h))
  /\ forallb plain_identifier
       (eligible api CONTAINER_CLIENT_KUBERNETES (world h)) = true
  /\ In "ws-b" (eligible api CONTAINER_CLIENT_KUBERNETES (world h1))
  /\ update_cache_file api CONTAINER_CLIENT_KUBERNETES Demo.incremental h1
     = (Ok tt, h2, t2)
  /\ (~ In "ws-b" (cached_identifiers h1) /\ In "ws-b" (exec_targets t2)).
Proof.
  assert (Hnd : NoDup ["ws-a"; "ws-b"]).
  { constructor; [intros [H|[]]; discriminate H|].
    constructor; [intros []|constructor]. }
  split; [reflexivity|]. split; [reflexivity|]. split; [now left|].
  split; [exact Hnd|]. split; [reflexivity|]. split; [right; now left|].
  split; [reflexivity|].
  apply (X12_unreachable_pod_is_asked_again (Demo.api "ws-")
           Demo.incremental Demo.incremental
           (Demo.host None (Some (render ["ws-a"])) Unlocked (Demo.fleet ["ws-b"]))
           (Demo.host (Some EmptyString) (Some (render ["ws-a"])) Unlocked
                      (Demo.fleet []))
           (Demo.host (Some (render [Demo.key_b])) (Some (render ["ws-a"; "ws-b"]))
                      Unlocked (Demo.fleet []))
           [("ws-b", None)] [("ws-b", Some Demo.key_b)] (Ok tt) "ws-b");
    [reflexivity | reflexivity | now left | exact Hnd | reflexivity
    | right; now left | reflexivity].
Defined.

(** ** X13: no duplicate line in the query cache *)

Lemma NoDup_split_by {A} (p : A -> bool) (l : list A) :
  NoDup (filter p l) -> NoDup (filter (fun x => negb (p x)) l) -> NoDup l.
Proof.
  induction l as [|a l IH]; simpl; intros Hp Hn; [constructor|].
  destruct (p a) eqn:Pa; simpl in Hn.
  - inv Hp. constructor; [|now apply IH].
    intros Hin. apply H1. apply filter_In. now split.
  - inv Hn. constructor; [|now apply IH].
    intros Hin. apply H1. apply filter_In. split; [exact Hin|now rewrite Pa].
Qed.

Lemma fetched_NoDup t : NoDup (exec_targets t) -> NoDup (map fst (fetched t)).
Proof.
  induction t as [|[j [out|]] t IH]; simpl; intros H.
  - constructor.
  - inv H. constructor; [|now apply IH].
    intros Hin. apply H2. now apply fetched_targets.
  - inv H. now apply IH.
Qed.

(** X13.  When the listing has no two eligible units with the same
    identifier, the query cache that [get_authorized_keys_kubernetes] or
    [get_authorized_keys_docker] returns has no identifier twice, whatever
    the given query cache holds (duplicates included). *)
Theorem X13_new_query_cache_has_no_duplicates
    {W : Type} (api : Backend W) (c : container_client_kind)
    (query_cache : list string) (w w' : W)
    (authorized_keys new_query_cache : list string) (t : list exec_event) :
  get_authorized_keys api c query_cache w
    = (Ok (authorized_keys, new_query_cache), w', t) ->
  NoDup (eligible api c w) ->
  NoDup new_query_cache.
Proof.
  intros E Hnd.
  pose proof (fetch_targets api _ _ _ _ _ _ E) as Ht. simpl in Ht.
  destruct (fetch_summary api _ _ _ _ _ _ E) as (_ & _ & _ & Hf & Hc & _).
  apply (NoDup_split_by (fun i => mem i query_cache)).
  - rewrite Hc. now apply NoDup_filter_keep.
  - rewrite Hf. apply fetched_NoDup. rewrite Ht. now apply NoDup_filter_keep.
Qed.

Lemma X13_witness :
  let api := Demo.api "ws-" in
  let t := [("7c3e", Some Demo.key_b)] in
  get_authorized_keys api CONTAINER_CLIENT_DOCKER ["0a1f"; "0a1f"] (Demo.fleet [])
    = (Ok ([Demo.key_b], ["0a1f"; "7c3e"]), Demo.fleet [], t)
  /\ NoDup (eligible api CONTAINER_CLIENT_DOCKER (Demo.fleet []))
  /\ NoDup ["0a1f"; "7c3e"].
Proof.
  assert (Hnd : NoDup ["0a1f"; "7c3e"]).
  { constructor; [intros [H|[]]; discriminate H|].
    constructor; [intros []|constructor]. }
  split; [reflexivity|]. split; [exact Hnd|].
  exact (X13_new_query_cache_has_no_duplicates (Demo.api "ws-")
           CONTAINER_CLIENT_DOCKER ["0a1f"; "0a1f"] (Demo.fleet []) (Demo.fleet [])
           [Demo.key_b] ["0a1f"; "7c3e"] [("7c3e", Some Demo.key_b)] eq_refl Hnd).
Defined.

(** ** X14: the client behind a successful run *)

(** X14.  From the first line of the script: it can end with status 0 only
    with a client, and which one is fixed by the probes.  Either the
    Kubernetes configuration loaded, and the run is the Kubernetes one
    whatever the Docker probe would do; or loading it raised
    FileNotFoundError and the Docker ping succeeded, and the run is the
    Docker one.  Any other exception of a probe, or FileNotFoundError from
    both, ends the script with status 1. *)
Theorem X14_status_0_needs_a_client
    {W : Type} (api : Backend W) (load_kube_config docker_ping : result unit)
    (argv : list string) (h h' : Host W) (status : nat) (t : list exec_event) :
  program api load_kube_config docker_ping argv h = (status, h', t) ->
  status = 0 ->
  (load_kube_config = Ok tt
   /\ script api (Some CONTAINER_CLIENT_KUBERNETES) argv h = (0, h', t))
  \/ (load_kube_config = Raise FileNotFoundError /\ docker_ping = Ok tt
      /\ script api (Some CONTAINER_CLIENT_DOCKER) argv h = (0, h', t)).
Proof.
  intros H ->. unfold program, select_container_client in H.
  destruct load_kube_config as [[]|[| |]].
  - left. now split.
  - destruct docker_ping as [[]|[| |]].
    + right. now repeat split.
    + simpl in H. discriminate.
    + discriminate.
    + discriminate.
  - discriminate.
  - discriminate.
Qed.

Lemma X14_witness :
  let api := Demo.api "ws-" in
  let h := Demo.host None None Unlocked (Demo.fleet []) in
  let h' := Demo.host (Some (render [Demo.key_a; Demo.key_b]))
                      (Some (render ["0a1f"; "7c3e"])) Unlocked (Demo.fleet []) in
  let t := [("0a1f", Some Demo.key_a); ("7c3e", Some Demo.key_b)] in
  program api (Raise FileNotFoundError) (Ok tt) Demo.incremental h = (0, h', t)
  /\ 0 = 0
  /\ ((Raise FileNotFoundError = Ok tt
       /\ script api (Some CONTAINER_CLIENT_KUBERNETES) Demo.incremental h = (0, h', t))
      \/ ((Raise FileNotFoundError = Raise FileNotFoundError :> result unit)
          /\ (Ok tt = Ok tt :> result unit)
          /\ script api (Some CONTAINER_CLIENT_DOCKER) Demo.incremental h = (0, h', t))).
Proof.
  split; [reflexivity|]. split; [reflexivity|].
  exact (X14_status_0_needs_a_client (Demo.api "ws-")
           (Raise FileNotFoundError) (Ok tt) Demo.incremental
           (Demo.host None None Unlocked (Demo.fleet []))
           (Demo.host (Some (render [Demo.key_a; Demo.key_b]))
                      (Some (render ["0a1f"; "7c3e"])) Unlocked (Demo.fleet []))
           0 [("0a1f", Some Demo.key_a); ("7c3e", Some Demo.key_b)]
           eq_refl eq_refl).
Defined.

(** ** X15: a run with nothing new to fetch *)

(** X15.  When the persisted query cache lists every eligible unit, an
    incremental invocation that takes the lock makes no exec and appends
    nothing to the authorized-keys file, and it rewrites the query cache
    file to the eligible identifiers, in listing order: entries of units
    that are gone, duplicate entries and the old order are dropped. *)
Theorem X15_run_with_nothing_new_rewrites_the_query_cache
    {W : Type} (api : Backend W) (c : container_client_kind)
    (argv : list string) (h : Host W) :
  cache_files_lock h = Unlocked ->
  full_run argv = false ->
  (forall i, In i (eligible api c (world h)) -> In i (cached_identifiers h)) ->
  update_cache_file api c argv h
  = (Ok tt,
     Build_Host (Some (content authorized_keys_cache_file h))
                (Some (render (eligible api c (world h)))) Unlocked (world h),
     []).
Proof.
  intros L F Hall.
  assert (E : get_authorized_keys api c
                (if full_run argv then [] else cached_identifiers h) (world h)
              = (Ok ([], eligible api c (world h)), world h, [])).
  { rewrite F. apply fetch_all_cached. intros i Hi. apply mem_In. now apply Hall. }
  assert (Hq : full_run argv = true -> etc_ssh_query_cache h <> None)
    by (rewrite F; discriminate).
  rewrite (update_cache_file_run api c argv h _ _ _ L Hq E).
  rewrite F. simpl. now rewrite append_nil_r.
Qed.

Lemma X15_witness :
  let api := Demo.api "ws-" in
  let h := Demo.host (Some (render [Demo.key_a]))
                     (Some (render ["ws-b"; "gone"; "ws-a"; "ws-b"]))
                     Unlocked (Demo.fleet []) in
  cache_files_lock h = Unlocked
  /\ full_run Demo.incremental = false
  /\ (forall i, In i (eligible api CONTAINER_CLIENT_KUBERNETES (world h)) ->
                In i (cached_identifiers h))
  /\ update_cache_file api CONTAINER_CLIENT_KUBERNETES Demo.incremental h
     = (Ok tt,
        Build_Host (Some (content authorized_keys_cache_file h))
                   (Some (render (eligible api CONTAINER_CLIENT_KUBERNETES (world h))))
                   Unlocked (world h),
        []).
Proof.
  assert (Hall : forall i,
             In i (eligible (Demo.api "ws-") CONTAINER_CLIENT_KUBERNETES
                     (Demo.fleet [])) ->
             In i (cached_identifiers
                     (Demo.host (Some (render [Demo.key_a]))
                        (Some (render ["ws-b"; "gone"; "ws-a"; "ws-b"]))
                        Unlocked (Demo.fleet [])))).
  { intros i [<-|[<-|[]]]; [right; right; now left | now left]. }
  split; [reflexivity|]. split; [reflexivity|]. split; [exact Hall|].
  apply (X15_run_with_nothing_new_rewrites_the_query_cache (Demo.api "ws-")
           CONTAINER_CLIENT_KUBERNETES Demo.incremental);
    [reflexivity | reflexivity | exact Hall].
Defined.
